(** * ImageCropper: the interactive crop engine of image-sizer

    A shallow embedding of [src/components/ImageCropper.tsx].

    Numbers.  The component computes with JavaScript numbers, which are
    binary64 doubles.  The geometry of the handlers is embedded over exact
    rationals [Q]: every arithmetic operation of the source is the
    corresponding operation on [Q], compared up to [Qeq]; this leaves out
    the rounding error of each operation.  Where a result depends on that
    rounding (which integer [Math.round] delivers for a product that sits on
    a half, which way a comparison of equal quantities goes) the operations
    are those of binary64, [Double]: [getCroppedImageIn] and
    [pixelBoxSizeIn] take the arithmetic as a parameter.  Integer-valued
    state (the custom ratio and pixel inputs, the canvas dimensions, the
    natural size of the image) is [Z]; the integer [JS.INFINITY], larger
    than every double, stands for the number Infinity that [parseInt]
    returns for an overlong run of digits.  The ratio index is [nat].

    React.  The component state is the record [State]; one rendered frame
    sees one state, every handler is a function from that state (and a
    snapshot of the DOM, [Dom]) to the next state, and the [useEffect] that
    re-initialises the crop box runs after a handler when one of its
    dependencies changed. *)

From Stdlib Require Import QArith Qround Qabs ZArith List String Ascii Bool Lia Lqa.
From Stdlib Require SpecFloat.
Import ListNotations.

Local Open Scope Q_scope.

(** ** JavaScript number primitives *)

Module JS.

(** [Math.max] and [Math.min] on two numbers. *)
Definition Math_max (a b : Q) : Q := if Qlt_le_dec a b then b else a.
Definition Math_min (a b : Q) : Q := if Qlt_le_dec b a then b else a.

(** [Math.round]: the integer nearest to [v], ties going towards
    +infinity, that is [floor (v + 1/2)]. *)
Definition Math_round (v : Q) : Z := Qfloor (v + (1 # 2)).

(** Truthiness of a number: every number but zero. *)
Definition truthy (v : Q) : bool := negb (Qeq_bool v 0).

(** The comparison [a > b]. *)
Definition gt (a b : Q) : bool := if Qlt_le_dec b a then true else false.

(** Strict equality [===] of two numbers. *)
Definition num_eq (a b : Q) : bool := Qeq_bool a b.

(** *** [parseInt] with no radix, on an ASCII string *)

Definition is_space (c : ascii) : bool :=
  let k := nat_of_ascii c in
  ((9 <=? k) && (k <=? 13))%nat || (k =? 32)%nat.

Fixpoint trim_start (s : string) : string :=
  match s with
  | String c r => if is_space c then trim_start r else s
  | EmptyString => s
  end.

(** The value of [c] as a digit in base [radix], when it is one. *)
Definition digit_value (radix : Z) (c : ascii) : option Z :=
  let k := Z.of_nat (nat_of_ascii c) in
  let v :=
    if ((48 <=? k) && (k <=? 57))%Z then Some (k - 48)%Z
    else if ((97 <=? k) && (k <=? 122))%Z then Some (k - 87)%Z
    else if ((65 <=? k) && (k <=? 90))%Z then Some (k - 55)%Z
    else None in
  match v with
  | Some d => if (d <? radix)%Z then Some d else None
  | None => None
  end.

(** The longest prefix of digits, read left to right; [None] when the
    prefix is empty. *)
Fixpoint digits (radix : Z) (acc : option Z) (s : string) : option Z :=
  match s with
  | String c r =>
      match digit_value radix c with
      | Some d =>
          digits radix
            (Some (match acc with Some a => a * radix + d | None => d end)%Z) r
      | None => acc
      end
  | EmptyString => acc
  end.

Definition strip_sign (s : string) : Z * string :=
  match s with
  | String "-"%char r => ((-1)%Z, r)
  | String "+"%char r => (1%Z, r)
  | _ => (1%Z, s)
  end.

Definition strip_hex (s : string) : Z * string :=
  match s with
  | String "0"%char (String "x"%char r) => (16%Z, r)
  | String "0"%char (String "X"%char r) => (16%Z, r)
  | _ => (10%Z, s)
  end.

(** The integer the text starts with, after white space, a sign and a
    hexadecimal prefix; [None] when no digit follows. *)
Definition mathInt (s : string) : option Z :=
  let '(sign, s1) := strip_sign (trim_start s) in
  let '(radix, s2) := strip_hex s1 in
  match digits radix None s2 with
  | Some n => Some (sign * n)%Z
  | None => None
  end.

(** An integer-valued number is an integer; an infinity is [INFINITY] or
    its opposite, which no double reaches. *)
Definition INFINITY : Z := (2 ^ 1024)%Z.

Definition isFinite (n : Z) : bool := (Z.abs n <? INFINITY)%Z.

(** The number for an integer: the nearest double, ties going to the even
    significand of 53 bits, and an infinity beyond the largest double. *)
Definition toNumber (n : Z) : Z :=
  let a := Z.abs n in
  if (a <? 2 ^ 53)%Z then n
  else
    let k := (Z.log2 a - 52)%Z in
    let q := (a / 2 ^ k)%Z in
    let r := (a mod 2 ^ k)%Z in
    let m :=
      match (2 * r ?= 2 ^ k)%Z with
      | Lt => q
      | Gt => (q + 1)%Z
      | Eq => if Z.even q then q else (q + 1)%Z
      end in
    if (m * 2 ^ k <? INFINITY)%Z then (Z.sgn n * (m * 2 ^ k))%Z
    else (Z.sgn n * INFINITY)%Z.

(** [parseInt s]: [None] stands for NaN. *)
Definition parseInt (s : string) : option Z :=
  match mathInt s with
  | Some n => Some (toNumber n)
  | None => None
  end.

(** [parseInt(s) || 1]: NaN and 0 are falsy. *)
Definition parseInt_or_1 (s : string) : Z :=
  match parseInt s with
  | Some n => if (n =? 0)%Z then 1%Z else n
  | None => 1%Z
  end.

End JS.

Import JS.

(** ** Binary64 *)

(** The doubles and their operations, rounding to nearest with ties to
    even, as [SpecFloat] defines them for a precision of 53 bits. *)
Module Double.

Import SpecFloat.

Definition prec : Z := 53.
Definition emax : Z := 1024.

(** A double is a zero, an infinity, NaN or (-1)^s * m * 2^e. *)
Definition double : Type := spec_float.

(** An integer as the operand of a division, before any rounding. *)
Definition integer (n : Z) : double :=
  match n with
  | Z0 => S754_zero false
  | Zpos p => S754_finite false p 0
  | Zneg p => S754_finite true p 0
  end.

Definition div (a b : double) : double := SFdiv prec emax a b.
Definition mul (a b : double) : double := SFmul prec emax a b.

(** The double nearest to a rational, the rational itself when a double
    has that value; the double nearest to an integer. *)
Definition ofQ (q : Q) : double :=
  div (integer (Qnum q)) (integer (Zpos (Qden q))).
Definition ofZ (n : Z) : double := ofQ (inject_Z n).

Definition isFinite (d : double) : bool :=
  match d with
  | S754_zero _ | S754_finite _ _ _ => true
  | _ => false
  end.

Definition negative (d : double) : bool :=
  match d with
  | S754_zero s | S754_infinity s | S754_finite s _ _ => s
  | S754_nan => false
  end.

(** The value of a finite double; 0 for the others. *)
Definition toQ (d : double) : Q :=
  match d with
  | S754_finite s m e =>
      let v :=
        match e with
        | Zneg p => Zpos m # (2 ^ p)
        | _ => inject_Z (Zpos m * 2 ^ e)
        end in
      if s then - v else v
  | _ => 0
  end.

(** The comparison [a > b]. *)
Definition gt (a b : double) : bool :=
  match SFcompare a b with
  | Some Gt => true
  | _ => false
  end.

End Double.

(** ** Arithmetics *)

(** The arithmetic of a computation: its numbers, how an integer attribute
    and a number of the state or of the layout enter it, the quotient, the
    product, the comparison [>] and [Math.round]. *)
Record Arithmetic : Type := mkArithmetic
  { number : Type;
    ofInteger : Z -> number;
    ofNumber : Q -> number;
    quotient : number -> number -> number;
    product : number -> number -> number;
    greater : number -> number -> bool;
    rounded : number -> Z }.

(** Exact arithmetic, the one of the handlers. *)
Definition rational : Arithmetic :=
  {| number := Q;
     ofInteger := inject_Z;
     ofNumber := fun q => q;
     quotient := Qdiv;
     product := Qmult;
     greater := gt;
     rounded := Math_round |}.

(** The arithmetic of JavaScript. *)
Definition binary64 : Arithmetic :=
  {| number := Double.double;
     ofInteger := Double.ofZ;
     ofNumber := Double.ofQ;
     quotient := Double.div;
     product := Double.mul;
     greater := Double.gt;
     rounded := fun d => Math_round (Double.toQ d) |}.

(** [Math.min] of two numbers. *)
Definition least (ar : Arithmetic) (a b : number ar) : number ar :=
  if greater ar a b then b else a.

(** ** Data model *)

Record CropBox : Type := mkCropBox
  { x : Q; y : Q; width : Q; height : Q }.

Record Point : Type := mkPoint { px : Q; py : Q }.

Inductive CustomMode : Type := ratio | pixels.

Definition CustomMode_eqb (a b : CustomMode) : bool :=
  match a, b with
  | ratio, ratio | pixels, pixels => true
  | _, _ => false
  end.

(** The eight resize handles, by the value of their [data-handle]. *)
Inductive Handle : Type := Hnw | Hne | Hsw | Hse | Hn | Hs | Hw | He.

Definition data_handle (h : Handle) : string :=
  match h with
  | Hnw => "nw" | Hne => "ne" | Hsw => "sw" | Hse => "se"
  | Hn => "n" | Hs => "s" | Hw => "w" | He => "e"
  end.

(** [str.includes(c)] for a one-character needle. *)
Fixpoint includes (str : string) (c : ascii) : bool :=
  match str with
  | String d r => Ascii.eqb d c || includes r c
  | EmptyString => false
  end.

Record AspectRatio : Type := mkAspect { name : string; value : Q }.

Definition ASPECT_RATIOS : list AspectRatio :=
  [ mkAspect "16:9" (16 / 9);
    mkAspect "4:3" (4 / 3);
    mkAspect "3:2" (3 / 2);
    mkAspect "1:1" 1;
    mkAspect "2:3" (2 / 3);
    mkAspect "3:4" (3 / 4);
    mkAspect "9:16" (9 / 16);
    mkAspect "Custom" 0 ].

(** What [drawImage] was asked to copy: the source rectangle and the
    destination rectangle, whose origin is always (0, 0). *)
Record DrawCall : Type := mkDraw
  { sourceX : Z; sourceY : Z; sourceWidth : Z; sourceHeight : Z;
    destWidth : Z; destHeight : Z }.

Record Canvas : Type := mkCanvas
  { canvasWidth : Z; canvasHeight : Z; drawn : DrawCall }.

(** The component state, one field per [useState]. *)
Record State : Type := mkState
  { cropBox : CropBox;
    isDragging : bool;
    dragStart : Point;
    currentRatioIndex : nat;
    imageLoaded : bool;
    showPreview : bool;
    previewUrl : option Canvas;
    lockAspectRatio : bool;
    resizeHandle : option Handle;
    customWidth : Z;
    customHeight : Z;
    customMode : CustomMode;
    pixelWidth : Z;
    pixelHeight : Z }.

Definition initialState : State :=
  {| cropBox := mkCropBox 0 0 0 0;
     isDragging := false;
     dragStart := mkPoint 0 0;
     currentRatioIndex := 0;
     imageLoaded := false;
     showPreview := false;
     previewUrl := None;
     lockAspectRatio := true;
     resizeHandle := None;
     customWidth := 16;
     customHeight := 9;
     customMode := ratio;
     pixelWidth := 1920;
     pixelHeight := 1080 |}.

(** The image element as the handlers read it: its natural size and the
    size of its bounding client rectangle. *)
Record ImageElement : Type := mkImage
  { naturalWidth : Z; naturalHeight : Z; imgWidth : Q; imgHeight : Q }.

(** A snapshot of the DOM: [imageRef.current], the origin of the bounding
    rectangle of [containerRef.current], and whether [getContext('2d')]
    yields a context. *)
Record Dom : Type := mkDom
  { imageRef : option ImageElement;
    containerRef : option Point;
    context2d : bool }.

(** ** Ratio / dimension policy *)

Definition isCustomRatio (st : State) : bool :=
  Nat.eqb (currentRatioIndex st) (List.length ASPECT_RATIOS - 1).

Definition customRatioValue (st : State) : Q :=
  inject_Z (customWidth st) / inject_Z (customHeight st).

(** [currentRatio]: [None] is [null]. *)
Definition currentRatio (st : State) : option Q :=
  if lockAspectRatio st then
    Some (if isCustomRatio st then
            match customMode st with
            | ratio => customRatioValue st
            | pixels => inject_Z (pixelWidth st) / inject_Z (pixelHeight st)
            end
          else value (nth (currentRatioIndex st) ASPECT_RATIOS (mkAspect "" 0)))
  else None.

(** [currentRatio ? r : ...]: the ratio when it is neither [null] nor 0. *)
Definition activeRatio (cr : option Q) : option Q :=
  match cr with
  | Some r => if truthy r then Some r else None
  | None => None
  end.

Definition pixelMode (st : State) : bool :=
  isCustomRatio st && CustomMode_eqb (customMode st) pixels.

(** Field updates ([setCropBox], [setIsDragging], ...). *)
Definition setCropBox (b : CropBox) (st : State) : State :=
  mkState b (isDragging st) (dragStart st) (currentRatioIndex st)
    (imageLoaded st) (showPreview st) (previewUrl st) (lockAspectRatio st)
    (resizeHandle st) (customWidth st) (customHeight st) (customMode st)
    (pixelWidth st) (pixelHeight st).

Definition setIsDragging (v : bool) (st : State) : State :=
  mkState (cropBox st) v (dragStart st) (currentRatioIndex st)
    (imageLoaded st) (showPreview st) (previewUrl st) (lockAspectRatio st)
    (resizeHandle st) (customWidth st) (customHeight st) (customMode st)
    (pixelWidth st) (pixelHeight st).

Definition setDragStart (v : Point) (st : State) : State :=
  mkState (cropBox st) (isDragging st) v (currentRatioIndex st)
    (imageLoaded st) (showPreview st) (previewUrl st) (lockAspectRatio st)
    (resizeHandle st) (customWidth st) (customHeight st) (customMode st)
    (pixelWidth st) (pixelHeight st).

Definition setCurrentRatioIndex (v : nat) (st : State) : State :=
  mkState (cropBox st) (isDragging st) (dragStart st) v
    (imageLoaded st) (showPreview st) (previewUrl st) (lockAspectRatio st)
    (resizeHandle st) (customWidth st) (customHeight st) (customMode st)
    (pixelWidth st) (pixelHeight st).

Definition setImageLoaded (v : bool) (st : State) : State :=
  mkState (cropBox st) (isDragging st) (dragStart st) (currentRatioIndex st)
    v (showPreview st) (previewUrl st) (lockAspectRatio st)
    (resizeHandle st) (customWidth st) (customHeight st) (customMode st)
    (pixelWidth st) (pixelHeight st).

Definition setPreview (shown : bool) (url : option Canvas) (st : State) : State :=
  mkState (cropBox st) (isDragging st) (dragStart st) (currentRatioIndex st)
    (imageLoaded st) shown url (lockAspectRatio st)
    (resizeHandle st) (customWidth st) (customHeight st) (customMode st)
    (pixelWidth st) (pixelHeight st).

Definition setLockAspectRatio (v : bool) (st : State) : State :=
  mkState (cropBox st) (isDragging st) (dragStart st) (currentRatioIndex st)
    (imageLoaded st) (showPreview st) (previewUrl st) v
    (resizeHandle st) (customWidth st) (customHeight st) (customMode st)
    (pixelWidth st) (pixelHeight st).

Definition setResizeHandle (v : option Handle) (st : State) : State :=
  mkState (cropBox st) (isDragging st) (dragStart st) (currentRatioIndex st)
    (imageLoaded st) (showPreview st) (previewUrl st) (lockAspectRatio st)
    v (customWidth st) (customHeight st) (customMode st)
    (pixelWidth st) (pixelHeight st).

Definition setCustomWidth (v : Z) (st : State) : State :=
  mkState (cropBox st) (isDragging st) (dragStart st) (currentRatioIndex st)
    (imageLoaded st) (showPreview st) (previewUrl st) (lockAspectRatio st)
    (resizeHandle st) v (customHeight st) (customMode st)
    (pixelWidth st) (pixelHeight st).

Definition setCustomHeight (v : Z) (st : State) : State :=
  mkState (cropBox st) (isDragging st) (dragStart st) (currentRatioIndex st)
    (imageLoaded st) (showPreview st) (previewUrl st) (lockAspectRatio st)
    (resizeHandle st) (customWidth st) v (customMode st)
    (pixelWidth st) (pixelHeight st).

Definition setCustomMode (v : CustomMode) (st : State) : State :=
  mkState (cropBox st) (isDragging st) (dragStart st) (currentRatioIndex st)
    (imageLoaded st) (showPreview st) (previewUrl st) (lockAspectRatio st)
    (resizeHandle st) (customWidth st) (customHeight st) v
    (pixelWidth st) (pixelHeight st).

Definition setPixelWidth (v : Z) (st : State) : State :=
  mkState (cropBox st) (isDragging st) (dragStart st) (currentRatioIndex st)
    (imageLoaded st) (showPreview st) (previewUrl st) (lockAspectRatio st)
    (resizeHandle st) (customWidth st) (customHeight st) (customMode st)
    v (pixelHeight st).

Definition setPixelHeight (v : Z) (st : State) : State :=
  mkState (cropBox st) (isDragging st) (dragStart st) (currentRatioIndex st)
    (imageLoaded st) (showPreview st) (previewUrl st) (lockAspectRatio st)
    (resizeHandle st) (customWidth st) (customHeight st) (customMode st)
    (pixelWidth st) v.

Definition swapRatioDimensions (st : State) : State :=
  let temp := customWidth st in
  setCustomHeight temp (setCustomWidth (customHeight st) st).

Definition swapPixelDimensions (st : State) : State :=
  let temp := pixelWidth st in
  setPixelHeight temp (setPixelWidth (pixelHeight st) st).

(** The two branches of [initializeCropBox], each giving
    [(boxWidth, boxHeight)]: the pixel branch sizes the box from the target
    pixel dimensions, the other one from the current ratio.  The guard of
    the pixel branch compares exact values here; [pixelBoxSizeIn] is the
    same branch in a chosen arithmetic, and the guards of the two differ
    only when a dimension of the candidate equals that of the display. *)
Definition pixelBoxSize (img : ImageElement) (pixelWidth pixelHeight : Z)
    : Q * Q :=
  let scaleX := inject_Z (naturalWidth img) / imgWidth img in
  let scaleY := inject_Z (naturalHeight img) / imgHeight img in
  let boxWidth := inject_Z pixelWidth / scaleX in
  let boxHeight := inject_Z pixelHeight / scaleY in
  if gt boxWidth (imgWidth img) || gt boxHeight (imgHeight img) then
    let scale :=
      Math_min (imgWidth img / boxWidth) (imgHeight img / boxHeight) * (8 # 10) in
    (boxWidth * scale, boxHeight * scale)
  else (boxWidth, boxHeight).

(** The pixel branch in a chosen arithmetic. *)
Definition pixelBoxSizeIn (ar : Arithmetic) (img : ImageElement)
    (pixelWidth pixelHeight : Z) : number ar * number ar :=
  let imgWidth := ofNumber ar (imgWidth img) in
  let imgHeight := ofNumber ar (imgHeight img) in
  let scaleX := quotient ar (ofInteger ar (naturalWidth img)) imgWidth in
  let scaleY := quotient ar (ofInteger ar (naturalHeight img)) imgHeight in
  let boxWidth := quotient ar (ofInteger ar pixelWidth) scaleX in
  let boxHeight := quotient ar (ofInteger ar pixelHeight) scaleY in
  if greater ar boxWidth imgWidth || greater ar boxHeight imgHeight then
    let scale :=
      product ar
        (least ar (quotient ar imgWidth boxWidth) (quotient ar imgHeight boxHeight))
        (ofNumber ar (8 # 10)) in
    (product ar boxWidth scale, product ar boxHeight scale)
  else (boxWidth, boxHeight).

Definition ratioBoxSize (img : ImageElement) (cr : option Q) : Q * Q :=
  let boxWidth := imgWidth img * (8 # 10) in
  let boxHeight :=
    match activeRatio cr with
    | Some r => boxWidth / r
    | None => imgHeight img * (8 # 10)
    end in
  if gt boxHeight (imgHeight img * (8 # 10)) then
    let boxHeight := imgHeight img * (8 # 10) in
    let boxWidth :=
      match activeRatio cr with
      | Some r => boxHeight * r
      | None => imgWidth img * (8 # 10)
      end in
    (boxWidth, boxHeight)
  else (boxWidth, boxHeight).

(** The centred box of the given size. *)
Definition centred (img : ImageElement) (size : Q * Q) : CropBox :=
  let '(boxWidth, boxHeight) := size in
  mkCropBox ((imgWidth img - boxWidth) / 2) ((imgHeight img - boxHeight) / 2)
    boxWidth boxHeight.

Definition initialBox (st : State) (img : ImageElement) : CropBox :=
  centred img
    (if pixelMode st then pixelBoxSize img (pixelWidth st) (pixelHeight st)
     else ratioBoxSize img (currentRatio st)).

Definition initializeCropBox (dom : Dom) (st : State) : State :=
  match imageRef dom with
  | None => st
  | Some img => setCropBox (initialBox st img) st
  end.

(** ** Wheel *)

(** The box of the shift-wheel branch of [handleWheel]: scale by 5% about
    the centre, derive the height from the ratio when there is one, fit
    into the image. *)
Definition wheelBox (img : ImageElement) (cr : option Q) (deltaY : Q)
    (cb : CropBox) : CropBox :=
  let scaleFactor := if gt deltaY 0 then 95 # 100 else 105 # 100 in
  let newWidth := width cb * scaleFactor in
  let newHeight :=
    match activeRatio cr with
    | Some r => newWidth / r
    | None => height cb * scaleFactor
    end in
  let '(newWidth, newHeight) :=
    if gt newWidth (imgWidth img) then
      (imgWidth img,
       match activeRatio cr with
       | Some r => imgWidth img / r
       | None => newHeight
       end)
    else (newWidth, newHeight) in
  let '(newWidth, newHeight) :=
    if gt newHeight (imgHeight img) then
      (match activeRatio cr with
       | Some r => imgHeight img * r
       | None => newWidth
       end,
       imgHeight img)
    else (newWidth, newHeight) in
  let x0 := x cb + (width cb - newWidth) / 2 in
  let y0 := y cb + (height cb - newHeight) / 2 in
  let finalX := Math_max 0 (Math_min x0 (imgWidth img - newWidth)) in
  let finalY := Math_max 0 (Math_min y0 (imgHeight img - newHeight)) in
  mkCropBox finalX finalY newWidth newHeight.

(** One step through the catalogue, as the updater passed to
    [setCurrentRatioIndex] computes it. *)
Definition cycleIndex (deltaY : Q) (prev : nat) : nat :=
  if gt deltaY 0 then
    if Nat.eqb prev (List.length ASPECT_RATIOS - 1) then 0%nat else (prev + 1)%nat
  else
    if Nat.eqb prev 0 then (List.length ASPECT_RATIOS - 1)%nat else (prev - 1)%nat.

Definition handleWheel (dom : Dom) (shiftKey : bool) (deltaY : Q)
    (st : State) : State :=
  if shiftKey then
    match imageRef dom with
    | None => st
    | Some img => setCropBox (wheelBox img (currentRatio st) deltaY (cropBox st)) st
    end
  else if lockAspectRatio st then
    setCurrentRatioIndex (cycleIndex deltaY (currentRatioIndex st)) st
  else st.

(** ** Pointer *)

Definition handleMouseDown (dom : Dom) (target : option Handle)
    (clientX clientY : Q) (st : State) : State :=
  match containerRef dom with
  | None => st
  | Some rect =>
      match target with
      | Some h => setResizeHandle (Some h) st
      | None =>
          setDragStart
            (mkPoint (clientX - px rect - x (cropBox st))
                     (clientY - py rect - y (cropBox st)))
            (setIsDragging true st)
      end
  end.

(** The dragging branch of [handleMouseMove]. *)
Definition dragBox (img : ImageElement) (newX newY : Q) (cb prev : CropBox)
    : CropBox :=
  let x1 := Math_max 0 (Math_min newX (imgWidth img - width cb)) in
  let y1 := Math_max 0 (Math_min newY (imgHeight img - height cb)) in
  mkCropBox x1 y1 (width prev) (height prev).

(** The resizing branch of [handleMouseMove], first part: the four edge
    blocks in the order of the source, each run when the handle name
    includes its letter.  [cb] is [cropBox], [nb] the four [new...]
    variables. *)
Definition resizeEdges (img : ImageElement) (cr : option Q) (h : Handle)
    (mouseX mouseY : Q) (cb : CropBox) : CropBox :=
  let hs := data_handle h in
  let nb := cb in
  let nb :=
    if includes hs "e" then
      let newWidth :=
        Math_max 50 (Math_min (mouseX - x cb) (imgWidth img - x cb)) in
      match activeRatio cr with
      | Some r => mkCropBox (x nb) (y nb) newWidth (newWidth / r)
      | None => mkCropBox (x nb) (y nb) newWidth (height nb)
      end
    else nb in
  let nb :=
    if includes hs "w" then
      let maxX := x cb + width cb - 50 in
      let newX := Math_max 0 (Math_min mouseX maxX) in
      let newWidth := x cb + width cb - newX in
      match activeRatio cr with
      | Some r =>
          let newHeight := newWidth / r in
          mkCropBox newX (y cb + (height cb - newHeight) / 2) newWidth newHeight
      | None => mkCropBox newX (y nb) newWidth (height nb)
      end
    else nb in
  let nb :=
    if includes hs "s" then
      let newHeight :=
        Math_max 50 (Math_min (mouseY - y cb) (imgHeight img - y cb)) in
      match activeRatio cr with
      | Some r => mkCropBox (x nb) (y nb) (newHeight * r) newHeight
      | None => mkCropBox (x nb) (y nb) (width nb) newHeight
      end
    else nb in
  let nb :=
    if includes hs "n" then
      let maxY := y cb + height cb - 50 in
      let newY := Math_max 0 (Math_min mouseY maxY) in
      let newHeight := y cb + height cb - newY in
      match activeRatio cr with
      | Some r =>
          let newWidth := newHeight * r in
          mkCropBox (x cb + (width cb - newWidth) / 2) newY newWidth newHeight
      | None => mkCropBox (x nb) newY (width nb) newHeight
      end
    else nb in
  nb.

(** Second part: the two corrections under the comment "Ensure the crop
    box stays within image bounds". *)
Definition keepWithinImage (img : ImageElement) (cr : option Q) (nb : CropBox)
    : CropBox :=
  let nb :=
    if gt (x nb + width nb) (imgWidth img) then
      let newWidth := imgWidth img - x nb in
      match activeRatio cr with
      | Some r => mkCropBox (x nb) (y nb) newWidth (newWidth / r)
      | None => mkCropBox (x nb) (y nb) newWidth (height nb)
      end
    else nb in
  let nb :=
    if gt (y nb + height nb) (imgHeight img) then
      let newHeight := imgHeight img - y nb in
      match activeRatio cr with
      | Some r => mkCropBox (x nb) (y nb) (newHeight * r) newHeight
      | None => mkCropBox (x nb) (y nb) (width nb) newHeight
      end
    else nb in
  nb.

Definition resizeBox (img : ImageElement) (cr : option Q) (h : Handle)
    (mouseX mouseY : Q) (cb : CropBox) : CropBox :=
  keepWithinImage img cr (resizeEdges img cr h mouseX mouseY cb).

Definition handleMouseMove (dom : Dom) (clientX clientY : Q) (st : State)
    : State :=
  match containerRef dom, imageRef dom with
  | Some containerRect, Some img =>
      if isDragging st then
        let newX := clientX - px containerRect - px (dragStart st) in
        let newY := clientY - py containerRect - py (dragStart st) in
        setCropBox (dragBox img newX newY (cropBox st) (cropBox st)) st
      else
        match resizeHandle st with
        | Some h =>
            let mouseX := clientX - px containerRect in
            let mouseY := clientY - py containerRect in
            setCropBox
              (resizeBox img (currentRatio st) h mouseX mouseY (cropBox st)) st
        | None => st
        end
  | _, _ => st
  end.

Definition handleMouseUp (st : State) : State :=
  setResizeHandle None (setIsDragging false st).

(** ** Rasterizer *)

(** Assigning [v] to [canvas.width] or [canvas.height]: the number becomes
    an unsigned 32-bit integer (0 for an infinity) and is kept when it is at
    most 2147483647; otherwise the attribute takes its default value, 300
    for the width and 150 for the height. *)
Definition canvasDimension (default v : Z) : Z :=
  if isFinite v then
    let u := (v mod 2 ^ 32)%Z in
    if (u <=? 2147483647)%Z then u else default
  else 0%Z.

(** [getCroppedImage], in a chosen arithmetic: [None] is [null].  The
    canvas records the width and height it has after the two assignments
    and the arguments of the one [drawImage] call. *)
Definition getCroppedImageIn (ar : Arithmetic) (dom : Dom) (st : State)
    : option Canvas :=
  if negb (context2d dom) then None
  else
    match imageRef dom with
    | None => None
    | Some img =>
        let scaleX :=
          quotient ar (ofInteger ar (naturalWidth img))
            (ofNumber ar (imgWidth img)) in
        let scaleY :=
          quotient ar (ofInteger ar (naturalHeight img))
            (ofNumber ar (imgHeight img)) in
        let cb := cropBox st in
        let '(cw, ch) :=
          if pixelMode st then (pixelWidth st, pixelHeight st)
          else (rounded ar (product ar (ofNumber ar (width cb)) scaleX),
                rounded ar (product ar (ofNumber ar (height cb)) scaleY)) in
        Some (mkCanvas (canvasDimension 300 cw) (canvasDimension 150 ch)
                (mkDraw (rounded ar (product ar (ofNumber ar (x cb)) scaleX))
                        (rounded ar (product ar (ofNumber ar (y cb)) scaleY))
                        (rounded ar (product ar (ofNumber ar (width cb)) scaleX))
                        (rounded ar (product ar (ofNumber ar (height cb)) scaleY))
                        cw ch))
    end.

(** The commit in exact arithmetic, the one the click handlers below
    use: what they do with the canvas does not depend on its pixels. *)
Definition getCroppedImage (dom : Dom) (st : State) : option Canvas :=
  getCroppedImageIn rational dom st.

(** The calls the component makes on its props; the data URL of a canvas
    is represented by the canvas. *)
Inductive Output : Type :=
| onImageUpdate (newUrl : Canvas)
| onClose.

(** [onImageUpdate] is an optional prop. *)
Record Props : Type := mkProps { hasOnImageUpdate : bool }.

Definition handleCrop (dom : Dom) (props : Props) (st : State)
    : State * list Output :=
  match getCroppedImage dom st with
  | None => (st, [])
  | Some canvas =>
      (st, (if hasOnImageUpdate props then [onImageUpdate canvas] else [])
             ++ [onClose])
  end.

Definition togglePreview (dom : Dom) (st : State) : State :=
  if showPreview st then setPreview false None st
  else
    match getCroppedImage dom st with
    | Some canvas => setPreview true (Some canvas) st
    | None => st
    end.

(** The [onChange] of the four number inputs:
    [Math.max(1, parseInt(e.target.value) || 1)], which is Infinity when
    [parseInt] is. *)
Definition inputValue (v : string) : Z := Z.max 1 (parseInt_or_1 v).

(** ** Events and the render cycle *)

Inductive Event : Type :=
| ImageLoad
| MouseDown (target : option Handle) (clientX clientY : Q)
| MouseMove (clientX clientY : Q)
| MouseUp
| Wheel (shiftKey : bool) (deltaY : Q)
| ClickLock
| ClickRatio (index : nat)
| ClickMode (m : CustomMode)
| ChangeWidth (v : string)
| ChangeHeight (v : string)
| ClickSwap
| ClickPreview
| ClickApply
| ClickClose.

(** The handler an event runs.  The ratio buttons are rendered when the
    lock is on, one per catalogue entry; the mode buttons, the two number
    inputs and the swap button when the lock is on and Custom is selected,
    the inputs being those of the current custom mode.  [MouseUp] is also
    the mouse leaving the container. *)
Definition handle (dom : Dom) (props : Props) (st : State) (ev : Event)
    : State * list Output :=
  let customShown := lockAspectRatio st && isCustomRatio st in
  match ev with
  | ImageLoad => (setImageLoaded true st, [])
  | MouseDown target clientX clientY =>
      (handleMouseDown dom target clientX clientY st, [])
  | MouseMove clientX clientY => (handleMouseMove dom clientX clientY st, [])
  | MouseUp => (handleMouseUp st, [])
  | Wheel shiftKey deltaY => (handleWheel dom shiftKey deltaY st, [])
  | ClickLock => (setLockAspectRatio (negb (lockAspectRatio st)) st, [])
  | ClickRatio index =>
      (if lockAspectRatio st && Nat.ltb index (List.length ASPECT_RATIOS)
       then setCurrentRatioIndex index st else st, [])
  | ClickMode m => (if customShown then setCustomMode m st else st, [])
  | ChangeWidth v =>
      (if customShown then
         match customMode st with
         | ratio => setCustomWidth (inputValue v) st
         | pixels => setPixelWidth (inputValue v) st
         end
       else st, [])
  | ChangeHeight v =>
      (if customShown then
         match customMode st with
         | ratio => setCustomHeight (inputValue v) st
         | pixels => setPixelHeight (inputValue v) st
         end
       else st, [])
  | ClickSwap =>
      (if customShown then
         match customMode st with
         | ratio => swapRatioDimensions st
         | pixels => swapPixelDimensions st
         end
       else st, [])
  | ClickPreview => (togglePreview dom st, [])
  | ClickApply => handleCrop dom props st
  | ClickClose => (st, [onClose])
  end.

Definition ratio_eqb (a b : option Q) : bool :=
  match a, b with
  | Some p, Some q => num_eq p q
  | None, None => true
  | _, _ => false
  end.

(** Whether the dependency list of the initialising [useEffect] is the
    same in two renders. *)
Definition sameDeps (a b : State) : bool :=
  Bool.eqb (imageLoaded a) (imageLoaded b)
  && ratio_eqb (currentRatio a) (currentRatio b)
  && Bool.eqb (lockAspectRatio a) (lockAspectRatio b)
  && Z.eqb (customWidth a) (customWidth b)
  && Z.eqb (customHeight a) (customHeight b)
  && CustomMode_eqb (customMode a) (customMode b)
  && Z.eqb (pixelWidth a) (pixelWidth b)
  && Z.eqb (pixelHeight a) (pixelHeight b).

(** The effect: when a dependency changed and the image is loaded, the
    crop box is initialised again. *)
Definition effect (dom : Dom) (before after : State) : State :=
  if sameDeps before after then after
  else if imageLoaded after then initializeCropBox dom after
  else after.

Definition step (dom : Dom) (props : Props) (st : State) (ev : Event)
    : State * list Output :=
  let '(st', out) := handle dom props st ev in
  (effect dom st st', out).

Fixpoint run (dom : Dom) (props : Props) (st : State) (evs : list Event)
    : State * list Output :=
  match evs with
  | [] => (st, [])
  | ev :: rest =>
      let '(st1, out1) := step dom props st ev in
      let '(st2, out2) := run dom props st1 rest in
      (st2, out1 ++ out2)
  end.

(** ** Predicates of the specification *)

(** The rectangle lies inside the displayed image. *)
Definition Contained (img : ImageElement) (b : CropBox) : Prop :=
  0 <= x b /\ 0 <= y b /\
  x b + width b <= imgWidth img /\ y b + height b <= imgHeight img.

(** Both sides are at least MIN_SIZE, the literal 50 of the source. *)
Definition MinSized (b : CropBox) : Prop := 50 <= width b /\ 50 <= height b.

Definition BoundsInvariant (img : ImageElement) (b : CropBox) : Prop :=
  Contained img b /\ MinSized b.

Definition PositiveSize (b : CropBox) : Prop := 0 < width b /\ 0 < height b.

(** The displayed image has a positive size and the decoded image too. *)
Definition Displayed (img : ImageElement) : Prop :=
  0 < imgWidth img /\ 0 < imgHeight img /\
  (0 < naturalWidth img)%Z /\ (0 < naturalHeight img)%Z.

(** The ratio index points into the catalogue and the four custom numbers
    are at least 1. *)
Definition wellFormed (st : State) : Prop :=
  (currentRatioIndex st < List.length ASPECT_RATIOS)%nat /\
  (1 <= customWidth st)%Z /\ (1 <= customHeight st)%Z /\
  (1 <= pixelWidth st)%Z /\ (1 <= pixelHeight st)%Z.

(** Rounding to the nearest integer with ties away from zero, the rounding
    the specification names. *)
Definition round_half_away (v : Q) : Z :=
  if Qlt_le_dec v 0 then (- Qfloor (- v + (1 # 2)))%Z else Qfloor (v + (1 # 2)).

(** [toSource] of the specification, for a given rounding. *)
Definition toSource (round : Q -> Z) (scaleX scaleY : Q) (rect : CropBox)
    : Z * Z * Z * Z :=
  (round (x rect * scaleX), round (y rect * scaleY),
   round (width rect * scaleX), round (height rect * scaleY)).

Definition scaleX (img : ImageElement) : Q :=
  inject_Z (naturalWidth img) / imgWidth img.
Definition scaleY (img : ImageElement) : Q :=
  inject_Z (naturalHeight img) / imgHeight img.

(** The source rectangle and the destination size of a rendered canvas. *)
Definition sourceRect (c : Canvas) : Z * Z * Z * Z :=
  (sourceX (drawn c), sourceY (drawn c),
   sourceWidth (drawn c), sourceHeight (drawn c)).
Definition destSize (c : Canvas) : Z * Z :=
  (destWidth (drawn c), destHeight (drawn c)).




(** The fields the ratio and dimension policy reads. *)
Definition policy (st : State) :=
  (currentRatioIndex st, lockAspectRatio st, customMode st,
   (customWidth st, customHeight st, pixelWidth st, pixelHeight st)).

(** The state after one wheel event without modifier. *)
Definition wheelStep (dom : Dom) (props : Props) (deltaY : Q) (st : State)
    : State :=
  fst (step dom props st (Wheel false deltaY)).

(** What the edge blocks establish under a ratio [r], before the boundary
    corrections: the sides are in ratio [r] and positive, and the origin is
    left of the right edge and above the bottom edge of the image. *)
Definition RatioShaped (img : ImageElement) (r : Q) (nb : CropBox) : Prop :=
  width nb == height nb * r /\ 0 < height nb /\ 0 < width nb /\
  x nb < imgWidth img /\ y nb < imgHeight img.

(** * The other components *)

(** ** ImageSizeInfo: ratio, format and size tables *)

Module SizeInfo.

(** The fields of [imageInfo] the component computes with; [type] is
    [imageInfo.file.type]. *)
Record ImageInfo : Type := mkImageInfo
  { width : Z; height : Z; name : string; type : string }.

(** [gcd] inside [calculateRatio], on integers; [a % b] is [Z.rem], whose
    sign is that of [a].  [None] when the fuel runs out. *)
Fixpoint gcd_fuel (fuel : nat) (a b : Z) : option Z :=
  match fuel with
  | O => None
  | S k => if (b =? 0)%Z then Some a else gcd_fuel k b (Z.rem a b)
  end.

(** One call for the test and one for each shrinking of [|b|]. *)
Definition gcd (a b : Z) : option Z := gcd_fuel (S (Z.abs_nat b)) a b.

(** [calculateRatio]: the two numbers printed on either side of the
    colon; [None] when [gcd] does not return. *)
Definition calculateRatio (width height : Z) : option (Q * Q) :=
  match gcd width height with
  | Some divisor =>
      Some (inject_Z width / inject_Z divisor,
            inject_Z height / inject_Z divisor)
  | None => None
  end.

(** [str.split(sep)] for a one-character separator. *)
Fixpoint split (sep : ascii) (str : string) : list string :=
  match str with
  | EmptyString => [EmptyString]
  | String c r =>
      if Ascii.eqb c sep then EmptyString :: split sep r
      else
        match split sep r with
        | h :: t => String c h :: t
        | [] => [String c EmptyString]
        end
  end.

(** [toUpperCase] on ASCII letters. *)
Definition upper (c : ascii) : ascii :=
  let k := nat_of_ascii c in
  if ((97 <=? k) && (k <=? 122))%nat then ascii_of_nat (k - 32) else c.

Fixpoint toUpperCase (s : string) : string :=
  match s with
  | EmptyString => EmptyString
  | String c r => String (upper c) (toUpperCase r)
  end.

(** [getImageFormat]: [None] is the TypeError of calling [toUpperCase] on
    [undefined]. *)
Definition getImageFormat (type : string) : option string :=
  match nth_error (split "/" type) 1 with
  | Some part => Some (toUpperCase part)
  | None => None
  end.

Definition scales : list (string * Q) :=
  [ ("x1", 1); ("x2", 2); ("x1.5", 15 # 10); ("x0.75", 75 # 100);
    ("x0.5", 5 # 10) ]%string.

(** [getProportionalSizes]: scale, width, height. *)
Definition getProportionalSizes (imageInfo : option ImageInfo)
    : list (string * Z * Z) :=
  match imageInfo with
  | None => []
  | Some info =>
      map (fun '(scale, multiplier) =>
             (scale,
              Math_round (inject_Z (width info) * multiplier),
              Math_round (inject_Z (height info) * multiplier)))
          scales
  end.

(** [getCommonSizes]: name, width, height. *)
Definition getCommonSizes (imageInfo : option ImageInfo)
    : list (string * Z * Z) :=
  match imageInfo with
  | None => []
  | Some info =>
      let aspectRatio := inject_Z (height info) / inject_Z (width info) in
      [ ("small", 320, Math_round (320 * aspectRatio));
        ("medium", 768, Math_round (768 * aspectRatio));
        ("large", 1024, Math_round (1024 * aspectRatio));
        ("xl", 1280, Math_round (1280 * aspectRatio));
        ("xxl", 1920, Math_round (1920 * aspectRatio)) ]%string%Z
  end.

(** The proportions of a listed size are those of the image up to the
    rounding of its sides: twice the cross product is within [slack]. *)
Definition proportional (info : ImageInfo) (slack : Z) (entry : string * Z * Z)
    : Prop :=
  let '(_, w, h) := entry in
  (2 * Z.abs (w * height info - h * width info) <= slack)%Z.

End SizeInfo.

(** ** App and DropZone: which files are loaded *)

Module Ingest.

(** [str.startsWith(p)]. *)
Definition startsWith (str p : string) : bool := String.prefix p str.

(** A file, by its MIME type and name. *)
Record File : Type := mkFile { type : string; name : string }.

(** The filter of [handleFile], [handleDrop] and [handleFileChange]: the
    calls of [onImageLoad] / [handleImageLoad] it leads to. *)
Definition handleFile (file : File) : list File :=
  if startsWith (type file) "image/" then [file] else [].

(** A clipboard item: its type and what [getAsFile] returns. *)
Record Item : Type := mkItem { itemType : string; getAsFile : option File }.

(** The loop of [handlePaste]; it stops at the first item of an image
    type that yields a file. *)
Fixpoint pasteItems (items : list Item) : list File :=
  match items with
  | [] => []
  | item :: rest =>
      if startsWith (itemType item) "image/" then
        match getAsFile item with
        | Some file => handleFile file
        | None => pasteItems rest
        end
      else pasteItems rest
  end.

(** [handlePaste]: [None] is a clipboard event without items. *)
Definition handlePaste (items : option (list Item)) : list File :=
  match items with
  | None => []
  | Some l => pasteItems l
  end.

End Ingest.

(** ** ImageMagnifier: zoom and lens *)

Module Magnifier.

Definition MIN_ZOOM : Q := 15 # 10.
Definition MAX_ZOOM : Q := 6.
Definition ZOOM_STEP : Q := 5 # 10.

(** [imagePos]: the bounding rectangle of the image. *)
Record ImagePos : Type := mkImagePos
  { x : Q; y : Q; width : Q; height : Q }.

Record State : Type := mkState
  { magnifierPos : Point;
    imagePos : ImagePos;
    showMagnifier : bool;
    zoom : Q }.

Definition initialState : State :=
  mkState (mkPoint 0 0) (mkImagePos 0 0 0 0) false 2.

Definition handleWheel (deltaY : Q) (st : State) : State :=
  let newZoom :=
    zoom st + (if gt deltaY 0 then - ZOOM_STEP else ZOOM_STEP) in
  mkState (magnifierPos st) (imagePos st) (showMagnifier st)
    (Math_min (Math_max newZoom MIN_ZOOM) MAX_ZOOM).

(** [updateMagnifier]; [image] tells whether [imageRef.current] is set. *)
Definition updateMagnifier (image : bool) (clientX clientY : Q) (st : State)
    : State :=
  if negb image then st
  else
    let x0 := clientX - x (imagePos st) in
    let y0 := clientY - y (imagePos st) in
    if gt 0 x0 || gt x0 (width (imagePos st))
       || gt 0 y0 || gt y0 (height (imagePos st))
    then mkState (magnifierPos st) (imagePos st) false (zoom st)
    else mkState (mkPoint x0 y0) (imagePos st) true (zoom st).

Inductive Event : Type :=
| Wheel (deltaY : Q)
| MouseMove (image : bool) (clientX clientY : Q)
| MouseLeave.

Definition step (st : State) (ev : Event) : State :=
  match ev with
  | Wheel deltaY => handleWheel deltaY st
  | MouseMove image clientX clientY => updateMagnifier image clientX clientY st
  | MouseLeave => mkState (magnifierPos st) (imagePos st) false (zoom st)
  end.

(** The lens shows only points of the image. *)
Definition lensOnImage (st : State) : Prop :=
  showMagnifier st = true ->
  0 <= px (magnifierPos st) <= width (imagePos st) /\
  0 <= py (magnifierPos st) <= height (imagePos st).

End Magnifier.

(** ** Predicates of the further properties *)

(** Every [onImageUpdate] call is immediately followed by [onClose]. *)
Fixpoint updatesThenClose (out : list Output) : Prop :=
  match out with
  | [] => True
  | onClose :: rest => updatesThenClose rest
  | onImageUpdate _ :: onClose :: rest => updatesThenClose rest
  | onImageUpdate _ :: _ => False
  end.

(** The preview flag is set exactly when a preview image is stored. *)
Definition previewConsistent (st : State) : Prop :=
  match previewUrl st with
  | Some _ => showPreview st = true
  | None => showPreview st = false
  end.

(** The events that call a prop. *)
Definition closesOrApplies (ev : Event) : bool :=
  match ev with ClickApply | ClickClose => true | _ => false end.

(** ** Quantities of the commit, of the pixel guard and of the inputs *)

(** The four products the commit rounds, in binary64: each field of the
    crop box times the scale of its axis. *)
Definition products (img : ImageElement) (cb : CropBox)
    : Double.double * Double.double * Double.double * Double.double :=
  let sX := Double.div (Double.ofZ (naturalWidth img)) (Double.ofQ (imgWidth img)) in
  let sY := Double.div (Double.ofZ (naturalHeight img)) (Double.ofQ (imgHeight img)) in
  (Double.mul (Double.ofQ (x cb)) sX, Double.mul (Double.ofQ (y cb)) sY,
   Double.mul (Double.ofQ (width cb)) sX, Double.mul (Double.ofQ (height cb)) sY).

(** The rational is the value of a double, as every number the running
    component holds is. *)
Definition isDouble (q : Q) : bool := Qeq_bool (Double.toQ (Double.ofQ q)) q.

(** The display size of the image and the four fields of the box are
    doubles. *)
Definition heldAsDoubles (img : ImageElement) (cb : CropBox) : bool :=
  isDouble (imgWidth img) && isDouble (imgHeight img)
  && isDouble (x cb) && isDouble (y cb)
  && isDouble (width cb) && isDouble (height cb).

(** All four are numbers: neither NaN nor an infinity. *)
Definition allFinite
    (p : Double.double * Double.double * Double.double * Double.double) : bool :=
  let '(a, b, c, d) := p in
  Double.isFinite a && Double.isFinite b && Double.isFinite c && Double.isFinite d.

(** Each of the four rounded by itself. *)
Definition roundEach (round : Q -> Z)
    (p : Double.double * Double.double * Double.double * Double.double)
    : Z * Z * Z * Z :=
  let '(a, b, c, d) := p in
  (round (Double.toQ a), round (Double.toQ b),
   round (Double.toQ c), round (Double.toQ d)).

(** The guard [boxWidth > imgWidth || boxHeight > imgHeight] of the pixel
    branch of [initializeCropBox], in a given arithmetic. *)
Definition exceedsDisplayIn (ar : Arithmetic) (img : ImageElement)
    (pixelWidth pixelHeight : Z) : bool :=
  let scaleX :=
    quotient ar (ofInteger ar (naturalWidth img)) (ofNumber ar (imgWidth img)) in
  let scaleY :=
    quotient ar (ofInteger ar (naturalHeight img)) (ofNumber ar (imgHeight img)) in
  let boxWidth := quotient ar (ofInteger ar pixelWidth) scaleX in
  let boxHeight := quotient ar (ofInteger ar pixelHeight) scaleY in
  greater ar boxWidth (ofNumber ar (imgWidth img))
  || greater ar boxHeight (ofNumber ar (imgHeight img)).

(** The text of a decimal numeral, most significant digit first, and the
    integer it denotes. *)
Definition digit_char (d : nat) : ascii := ascii_of_nat (48 + d).

Fixpoint numeral (ds : list nat) : string :=
  match ds with
  | [] => EmptyString
  | d :: rest => String (digit_char d) (numeral rest)
  end.

Definition denoted (ds : list nat) : Z :=
  fold_left (fun a d => (a * 10 + Z.of_nat d)%Z) ds 0%Z.

(** The texts typed in a sequence of events are shorter than 256
    characters. *)
Definition shortText (ev : Event) : bool :=
  match ev with
  | ChangeWidth v | ChangeHeight v => (String.length v <=? 255)%nat
  | _ => true
  end.

(** The four custom numbers are numbers, not infinities. *)
Definition finiteNumbers (st : State) : Prop :=
  isFinite (customWidth st) = true /\ isFinite (customHeight st) = true /\
  isFinite (pixelWidth st) = true /\ isFinite (pixelHeight st) = true.

(** ** States and geometries of the examples *)

(** A 1000 x 1000 image shown at its natural size. *)
Definition squareImage : ImageElement := mkImage 1000 1000 1000 1000.
Definition squareDom : Dom :=
  mkDom (Some squareImage) (Some (mkPoint 0 0)) true.

(** A 1000 x 300 image shown at its natural size. *)
Definition wideImage : ImageElement := mkImage 1000 300 1000 300.
Definition wideDom : Dom := mkDom (Some wideImage) (Some (mkPoint 0 0)) true.

(** With the 1:1 ratio locked, the box is dragged to the left edge and its
    top handle pulled up by five pixels, which re-centres it horizontally
    to x = -5/2. *)
Definition recentredState : State :=
  fst (run squareDom (mkProps true) initialState
         [ImageLoad; ClickRatio 3;
          MouseDown None 500 500; MouseMove 0 600; MouseUp;
          MouseDown (Some Hn) 400 200; MouseMove 400 195; MouseUp]).

(** Custom pixel mode with a 900 x 900 target, typed into the inputs. *)
Definition target900State : State :=
  fst (run squareDom (mkProps true) initialState
         [ImageLoad; ClickRatio 7; ClickMode pixels;
          ChangeWidth "900"; ChangeHeight "900"]).

(** A 64 x 64 image shown at its natural size, loaded and unlocked: the
    box is the initial one, 51.2 x 51.2 at (6.4, 6.4). *)
Definition smallImage : ImageElement := mkImage 64 64 64 64.
Definition smallDom : Dom := mkDom (Some smallImage) (Some (mkPoint 0 0)) true.
Definition unlockedSmallState : State :=
  fst (run smallDom (mkProps true) initialState [ImageLoad; ClickLock]).

(** The 16:9 box of the square image, its right handle dragged to the
    left edge of the image. *)
Definition squeezedState : State :=
  fst (run squareDom (mkProps true) initialState
         [ImageLoad; MouseDown (Some He) 900 500; MouseMove 0 500]).

(** The 800 x 800 pixel target on the square image, its box dragged to
    the left edge and its top handle pulled up by five pixels: as in
    [recentredState], x = -5/2. *)
Definition recentredTargetState : State :=
  fst (run squareDom (mkProps true) initialState
         [ImageLoad; ClickRatio 7; ClickMode pixels;
          ChangeWidth "800"; ChangeHeight "800";
          MouseDown None 500 500; MouseMove 0 600; MouseUp;
          MouseDown (Some Hn) 400 200; MouseMove 400 195; MouseUp]).

(** A pixel target wider than a canvas can be. *)
Definition hugeTargetState : State :=
  fst (run squareDom (mkProps true) initialState
         [ImageLoad; ClickRatio 7; ClickMode pixels; ChangeWidth "3000000000"]).

(** The default 1920 x 1080 target, the box dragged to its minimal
    width. *)
Definition narrowTargetState : State :=
  fst (run squareDom (mkProps true) initialState
         [ImageLoad; ClickRatio 7; ClickMode pixels;
          MouseDown (Some He) 900 500; MouseMove 0 500; MouseUp]).

(** A 1005 x 1005 image shown at 1000 x 1000, just loaded: the box is
    800 x 450 at (100, 275) and the scale is 1.005. *)
Definition scaledImage : ImageElement := mkImage 1005 1005 1000 1000.
Definition scaledDom : Dom := mkDom (Some scaledImage) (Some (mkPoint 0 0)) true.
Definition scaledLoadedState : State :=
  fst (run scaledDom (mkProps true) initialState [ImageLoad]).

(** A 5472 x 3648 image shown at 1200 x 800. *)
Definition photoImage : ImageElement := mkImage 5472 3648 1200 800.

(** The DOM while the preview is shown: the image element is unmounted. *)
Definition previewDom : Dom := mkDom None (Some (mkPoint 0 0)) true.

(** A run of [n] nines. *)
Fixpoint nines (n : nat) : string :=
  match n with
  | O => EmptyString
  | S k => String "9"%char (nines k)
  end.

(** Custom ratio selected and 309 nines typed into the width input. *)
Definition overlongInputState : State :=
  fst (run squareDom (mkProps true) initialState
         [ImageLoad; ClickRatio 7; ChangeWidth (nines 309)]).

(** * Proofs *)

(** ** Comparisons *)

Lemma Math_max_cases (a b : Q) :
  (a < b /\ Math_max a b = b) \/ (b <= a /\ Math_max a b = a).
Proof. unfold Math_max; destruct (Qlt_le_dec a b); auto. Qed.

Lemma Math_min_cases (a b : Q) :
  (b < a /\ Math_min a b = b) \/ (a <= b /\ Math_min a b = a).
Proof. unfold Math_min; destruct (Qlt_le_dec b a); auto. Qed.

Lemma gt_true (a b : Q) : gt a b = true <-> b < a.
Proof.
  unfold gt; destruct (Qlt_le_dec b a); split; intros; try easy.
  exfalso; lra.
Qed.

Lemma gt_false (a b : Q) : gt a b = false <-> a <= b.
Proof.
  unfold gt; destruct (Qlt_le_dec b a); split; intros; try easy.
  exfalso; lra.
Qed.

Lemma truthy_pos (r : Q) : 0 < r -> truthy r = true.
Proof.
  intros Hr; unfold truthy.
  destruct (Qeq_bool r 0) eqn:E; [|reflexivity].
  apply Qeq_bool_eq in E; lra.
Qed.

Lemma activeRatio_pos (r : Q) : 0 < r -> activeRatio (Some r) = Some r.
Proof. intros Hr; simpl; now rewrite truthy_pos. Qed.

Lemma activeRatio_Some (cr : option Q) (r : Q) :
  activeRatio cr = Some r -> cr = Some r /\ ~ r == 0.
Proof.
  destruct cr as [q|]; simpl; [|discriminate].
  unfold truthy; destruct (Qeq_bool q 0) eqn:E; simpl; [discriminate|].
  intros [= ->]; split; [reflexivity|].
  intros H; apply Qeq_eq_bool in H; congruence.
Qed.

Lemma Qdiv_pos (a b : Q) : 0 < a -> 0 < b -> 0 < a / b.
Proof.
  intros Ha Hb; unfold Qdiv.
  apply Qmult_lt_0_compat; [assumption|now apply Qinv_lt_0_compat].
Qed.

Lemma inject_Z_pos (z : Z) : (1 <= z)%Z -> 0 < inject_Z z.
Proof. intros H; unfold Qlt; simpl; lia. Qed.

(** ** The render cycle keeps the policy fields *)

Lemma ratio_eqb_refl (a : option Q) : ratio_eqb a a = true.
Proof. destruct a; simpl; [apply Qeq_bool_refl|reflexivity]. Qed.

Lemma CustomMode_eqb_refl (m : CustomMode) : CustomMode_eqb m m = true.
Proof. now destruct m. Qed.

Lemma sameDeps_refl (st : State) : sameDeps st st = true.
Proof.
  unfold sameDeps.
  now rewrite !Bool.eqb_reflx, !Z.eqb_refl, ratio_eqb_refl, CustomMode_eqb_refl.
Qed.

Lemma sameDeps_policy (a b : State) :
  imageLoaded a = imageLoaded b -> policy a = policy b -> sameDeps a b = true.
Proof.
  destruct a, b; unfold policy, sameDeps, currentRatio, isCustomRatio,
    customRatioValue; simpl.
  intros -> [= -> -> -> -> -> -> ->].
  now rewrite !Bool.eqb_reflx, !Z.eqb_refl, ratio_eqb_refl, CustomMode_eqb_refl.
Qed.

Lemma effect_cases (dom : Dom) (a b : State) :
  effect dom a b = b \/
  exists img, imageRef dom = Some img /\
              effect dom a b = setCropBox (initialBox b img) b.
Proof.
  unfold effect, initializeCropBox.
  destruct (sameDeps a b); [now left|].
  destruct (imageLoaded b); [|now left].
  destruct (imageRef dom) as [img|]; [right; now exists img|now left].
Qed.

Lemma effect_policy (dom : Dom) (a b : State) :
  policy (effect dom a b) = policy b.
Proof.
  destruct (effect_cases dom a b) as [-> | (img & _ & ->)]; reflexivity.
Qed.

(** ** Wheel cycling through the catalogue *)

Lemma effect_index (dom : Dom) (a b : State) :
  currentRatioIndex (effect dom a b) = currentRatioIndex b.
Proof.
  destruct (effect_cases dom a b) as [-> | (img & _ & ->)]; reflexivity.
Qed.

Lemma effect_lock (dom : Dom) (a b : State) :
  lockAspectRatio (effect dom a b) = lockAspectRatio b.
Proof.
  destruct (effect_cases dom a b) as [-> | (img & _ & ->)]; reflexivity.
Qed.

Lemma wheelStep_index (dom : Dom) (props : Props) (d : Q) (st : State) :
  currentRatioIndex (wheelStep dom props d st) =
  if lockAspectRatio st then cycleIndex d (currentRatioIndex st)
  else currentRatioIndex st.
Proof.
  unfold wheelStep, step; simpl. rewrite effect_index.
  unfold handleWheel; now destruct (lockAspectRatio st).
Qed.

Lemma wheelStep_lock (dom : Dom) (props : Props) (d : Q) (st : State) :
  lockAspectRatio (wheelStep dom props d st) = lockAspectRatio st.
Proof.
  unfold wheelStep, step; simpl. rewrite effect_lock.
  unfold handleWheel; destruct (lockAspectRatio st) eqn:E; simpl; auto.
Qed.

Lemma wheelStep_iter (dom : Dom) (props : Props) (d : Q) (k : nat) (st : State) :
  lockAspectRatio st = true ->
  lockAspectRatio (Nat.iter k (wheelStep dom props d) st) = true /\
  currentRatioIndex (Nat.iter k (wheelStep dom props d) st) =
  Nat.iter k (cycleIndex d) (currentRatioIndex st).
Proof.
  intros L; induction k as [|k [IHl IHi]]; simpl; [auto|].
  rewrite wheelStep_lock, wheelStep_index, IHl, IHi; auto.
Qed.

Lemma cycleIndex_forward (d : Q) (i : nat) :
  0 < d -> (i < 8)%nat -> cycleIndex d i = ((i + 1) mod 8)%nat.
Proof.
  intros Hd Hi; unfold cycleIndex.
  apply gt_true in Hd; rewrite Hd.
  do 8 (destruct i as [|i]; [reflexivity|]); lia.
Qed.

Lemma cycleIndex_backward (d : Q) (i : nat) :
  d <= 0 -> (i < 8)%nat -> cycleIndex d i = ((i + 7) mod 8)%nat.
Proof.
  intros Hd Hi; unfold cycleIndex.
  apply gt_false in Hd; rewrite Hd.
  do 8 (destruct i as [|i]; [reflexivity|]); lia.
Qed.

Lemma cycleIndex_lt (d : Q) (i : nat) : (i < 8)%nat -> (cycleIndex d i < 8)%nat.
Proof.
  intros Hi. destruct (Qlt_le_dec 0 d).
  - rewrite cycleIndex_forward by assumption. apply Nat.mod_upper_bound; lia.
  - rewrite cycleIndex_backward by assumption. apply Nat.mod_upper_bound; lia.
Qed.

Lemma cycleIndex_forward_iter (d : Q) (k i : nat) :
  0 < d -> (i < 8)%nat -> Nat.iter k (cycleIndex d) i = ((i + k) mod 8)%nat.
Proof.
  intros Hd Hi; induction k as [|k IH]; simpl Nat.iter.
  - rewrite Nat.add_0_r, Nat.mod_small; auto.
  - rewrite IH, cycleIndex_forward; auto; [|apply Nat.mod_upper_bound; lia].
    rewrite Nat.Div0.add_mod_idemp_l. f_equal; lia.
Qed.

Lemma cycleIndex_backward_iter (d : Q) (k i : nat) :
  d <= 0 -> (i < 8)%nat ->
  Nat.iter k (cycleIndex d) i = ((i + 7 * k) mod 8)%nat.
Proof.
  intros Hd Hi; induction k as [|k IH]; simpl Nat.iter.
  - rewrite Nat.mul_0_r, Nat.add_0_r, Nat.mod_small; auto.
  - rewrite IH, cycleIndex_backward; auto; [|apply Nat.mod_upper_bound; lia].
    rewrite Nat.Div0.add_mod_idemp_l. f_equal; lia.
Qed.

Lemma cycleIndex_forward_8 (d : Q) (i : nat) :
  0 < d -> (i < 8)%nat -> Nat.iter 8 (cycleIndex d) i = i.
Proof.
  intros Hd Hi. rewrite cycleIndex_forward_iter by assumption.
  replace (i + 8)%nat with (i + 1 * 8)%nat by lia.
  rewrite Nat.Div0.mod_add. now apply Nat.mod_small.
Qed.

Lemma cycleIndex_backward_8 (d : Q) (i : nat) :
  d <= 0 -> (i < 8)%nat -> Nat.iter 8 (cycleIndex d) i = i.
Proof.
  intros Hd Hi. rewrite cycleIndex_backward_iter by assumption.
  replace (i + 7 * 8)%nat with (i + 7 * 8)%nat by lia.
  rewrite Nat.Div0.mod_add. now apply Nat.mod_small.
Qed.

Lemma cycleIndex_inverse (f b : Q) (i : nat) :
  0 < f -> b <= 0 -> (i < 8)%nat ->
  cycleIndex b (cycleIndex f i) = i /\ cycleIndex f (cycleIndex b i) = i.
Proof.
  intros Hf Hb Hi.
  rewrite (cycleIndex_forward f i), (cycleIndex_backward b i) by assumption.
  rewrite cycleIndex_backward, cycleIndex_forward; auto;
    try (apply Nat.mod_upper_bound; lia).
  rewrite !Nat.Div0.add_mod_idemp_l.
  replace (i + 1 + 7)%nat with (i + 1 * 8)%nat by lia.
  replace (i + 7 + 1)%nat with (i + 1 * 8)%nat by lia.
  rewrite Nat.Div0.mod_add, Nat.mod_small; auto.
Qed.

(** C8.  With the lock on and no modifier, a wheel event moves the
    selection one step forward when [deltaY > 0] and one step backward when
    [deltaY < 0] through the catalogue 16:9, 4:3, 3:2, 1:1, 2:3, 3:4, 9:16,
    Custom, wrapping at both ends: eight steps in one direction come back
    to the selection, and so does a forward step followed by a backward one
    (or the reverse).  With the lock off the selection is unchanged. *)
Theorem wheel_cycles_catalog (dom : Dom) (props : Props) (st : State) :
  (currentRatioIndex st < 8)%nat ->
  map name ASPECT_RATIOS =
    ["16:9"; "4:3"; "3:2"; "1:1"; "2:3"; "3:4"; "9:16"; "Custom"]%string /\
  (lockAspectRatio st = true ->
   forall fwd bwd : Q, 0 < fwd -> bwd < 0 ->
     currentRatioIndex (wheelStep dom props fwd st)
       = ((currentRatioIndex st + 1) mod 8)%nat /\
     currentRatioIndex (wheelStep dom props bwd st)
       = ((currentRatioIndex st + 7) mod 8)%nat /\
     currentRatioIndex (Nat.iter 8 (wheelStep dom props fwd) st)
       = currentRatioIndex st /\
     currentRatioIndex (Nat.iter 8 (wheelStep dom props bwd) st)
       = currentRatioIndex st /\
     currentRatioIndex (wheelStep dom props bwd (wheelStep dom props fwd st))
       = currentRatioIndex st /\
     currentRatioIndex (wheelStep dom props fwd (wheelStep dom props bwd st))
       = currentRatioIndex st) /\
  (lockAspectRatio st = false ->
   forall (shiftKey : bool) (deltaY : Q),
     currentRatioIndex (fst (step dom props st (Wheel shiftKey deltaY)))
       = currentRatioIndex st).
Proof.
  intros Hi; split; [reflexivity|split].
  - intros L fwd bwd Hf Hb.
    assert (Hb' : bwd <= 0) by lra.
    pose proof (wheelStep_iter dom props fwd 8 st L) as [_ F8].
    pose proof (wheelStep_iter dom props bwd 8 st L) as [_ B8].
    rewrite F8, B8.
    rewrite !wheelStep_index, !wheelStep_lock, L.
    pose proof (cycleIndex_lt fwd _ Hi) as Hif.
    pose proof (cycleIndex_lt bwd _ Hi) as Hib.
    repeat split.
    + now apply cycleIndex_forward.
    + now apply cycleIndex_backward.
    + now apply cycleIndex_forward_8.
    + now apply cycleIndex_backward_8.
    + exact (proj1 (cycleIndex_inverse fwd bwd _ Hf Hb' Hi)).
    + exact (proj2 (cycleIndex_inverse fwd bwd _ Hf Hb' Hi)).
  - intros L shiftKey deltaY. unfold step; simpl.
    rewrite effect_index. unfold handleWheel. rewrite L.
    destruct shiftKey; [destruct (imageRef dom)|]; reflexivity.
Qed.

Lemma wheel_cycles_catalog_witness :
  currentRatioIndex
    (wheelStep (mkDom None None false) (mkProps false) (-1) initialState) = 7%nat.
Proof.
  destruct (wheel_cycles_catalog (mkDom None None false) (mkProps false)
              initialState) as (_ & H & _); [simpl; lia|].
  destruct (H eq_refl 1 (-1)) as (_ & -> & _); reflexivity.
Defined.

(** ** Commit without a rasterization surface *)

Lemma getCroppedImage_unavailable (dom : Dom) (st : State) :
  context2d dom = false \/ imageRef dom = None ->
  getCroppedImage dom st = None.
Proof.
  unfold getCroppedImage, getCroppedImageIn; intros [-> | ->]; simpl;
    [reflexivity|].
  now destruct (context2d dom).
Qed.

(** C9.  When no drawing context or no image element is available,
    [getCroppedImage] returns [null]; the click on Apply then leaves the
    whole component state (crop box, selection, custom mode, interaction
    flags) as it was and calls neither [onImageUpdate] nor [onClose]. *)
Theorem commit_aborted_without_surface (dom : Dom) (props : Props) (st : State) :
  context2d dom = false \/ imageRef dom = None ->
  getCroppedImage dom st = None /\
  step dom props st ClickApply = (st, []).
Proof.
  intros H; pose proof (getCroppedImage_unavailable dom st H) as G.
  split; [assumption|].
  unfold step, handle, handleCrop; rewrite G.
  unfold effect; now rewrite sameDeps_refl.
Qed.

Lemma commit_aborted_without_surface_witness :
  step (mkDom None (Some (mkPoint 0 0)) true) (mkProps true) initialState
    ClickApply = (initialState, []).
Proof.
  apply (commit_aborted_without_surface
           (mkDom None (Some (mkPoint 0 0)) true) (mkProps true) initialState).
  right; reflexivity.
Defined.

(** ** The custom numbers stay positive *)

Lemma inputValue_ge_1 (v : string) : (1 <= inputValue v)%Z.
Proof. unfold inputValue; lia. Qed.

Lemma inputValue_NaN (v : string) : parseInt v = None -> inputValue v = 1%Z.
Proof. unfold inputValue, parseInt_or_1; now intros ->. Qed.

Lemma inputValue_clamp (v : string) :
  inputValue v =
  match parseInt v with
  | Some n => Z.max 1 n
  | None => 1%Z
  end.
Proof.
  unfold inputValue, parseInt_or_1.
  destruct (parseInt v) as [n|]; [|reflexivity].
  destruct (Z.eqb_spec n 0); lia.
Qed.

Lemma wellFormed_policy (a b : State) :
  policy a = policy b -> wellFormed a -> wellFormed b.
Proof.
  unfold policy, wellFormed; intros [= -> _ _ -> -> -> ->]; auto.
Qed.

Lemma wellFormed_initialState : wellFormed initialState.
Proof. unfold wellFormed; simpl; lia. Qed.

Lemma handle_wellFormed (dom : Dom) (props : Props) (st : State) (ev : Event) :
  wellFormed st -> wellFormed (fst (handle dom props st ev)).
Proof.
  intros WF; pose proof WF as (Hi & Hcw & Hch & Hpw & Hph).
  destruct ev; simpl; try assumption.
  - unfold handleMouseDown.
    destruct (containerRef dom); [destruct target|]; assumption.
  - unfold handleMouseMove.
    destruct (containerRef dom); [|assumption].
    destruct (imageRef dom); [|assumption].
    destruct (isDragging st); [assumption|].
    destruct (resizeHandle st); assumption.
  - unfold handleWheel.
    destruct shiftKey; [destruct (imageRef dom); assumption|].
    destruct (lockAspectRatio st); [|assumption].
    unfold wellFormed; simpl; repeat split; try assumption.
    now apply cycleIndex_lt.
  - destruct (lockAspectRatio st && (index <? 8)%nat) eqn:E; [|assumption].
    apply andb_prop in E as [_ E]; apply Nat.ltb_lt in E.
    unfold wellFormed; simpl; repeat split; assumption.
  - destruct (lockAspectRatio st && isCustomRatio st); assumption.
  - pose proof (inputValue_ge_1 v).
    destruct (lockAspectRatio st && isCustomRatio st); [|assumption].
    destruct (customMode st); unfold wellFormed; simpl; repeat split; assumption.
  - pose proof (inputValue_ge_1 v).
    destruct (lockAspectRatio st && isCustomRatio st); [|assumption].
    destruct (customMode st); unfold wellFormed; simpl; repeat split; assumption.
  - destruct (lockAspectRatio st && isCustomRatio st); [|assumption].
    destruct (customMode st); unfold wellFormed; simpl; repeat split; assumption.
  - unfold togglePreview.
    destruct (showPreview st); [assumption|].
    destruct (getCroppedImage dom st); assumption.
  - unfold handleCrop. destruct (getCroppedImage dom st); assumption.
Qed.

Lemma step_wellFormed (dom : Dom) (props : Props) (st : State) (ev : Event) :
  wellFormed st -> wellFormed (fst (step dom props st ev)).
Proof.
  intros WF; unfold step.
  pose proof (handle_wellFormed dom props st ev WF) as H.
  destruct (handle dom props st ev) as [st' out]; simpl in *.
  eapply wellFormed_policy; [|exact H].
  symmetry; apply effect_policy.
Qed.

Lemma run_wellFormed (dom : Dom) (props : Props) (evs : list Event) (st : State) :
  wellFormed st -> wellFormed (fst (run dom props st evs)).
Proof.
  revert st; induction evs as [|ev rest IH]; intros st WF; simpl; [assumption|].
  pose proof (step_wellFormed dom props st ev WF) as H1.
  destruct (step dom props st ev) as [st1 out1]; simpl in H1.
  specialize (IH st1 H1).
  destruct (run dom props st1 rest) as [st2 out2]; exact IH.
Qed.

Lemma named_ratio_pos (i : nat) :
  (i < 7)%nat -> 0 < value (nth i ASPECT_RATIOS (mkAspect "" 0)).
Proof.
  intros Hi. do 7 (destruct i as [|i]; [reflexivity|]). lia.
Qed.

Lemma wellFormed_ratio_pos (st : State) (r : Q) :
  wellFormed st -> currentRatio st = Some r -> 0 < r.
Proof.
  intros (Hi & Hcw & Hch & Hpw & Hph). unfold currentRatio.
  destruct (lockAspectRatio st); [|discriminate].
  intros [= <-]. unfold isCustomRatio, customRatioValue.
  destruct (Nat.eqb_spec (currentRatioIndex st) (List.length ASPECT_RATIOS - 1)) as [E|E].
  - destruct (customMode st); apply Qdiv_pos; now apply inject_Z_pos.
  - apply named_ratio_pos. simpl in Hi, E. lia.
Qed.

(** *** Parsing a decimal numeral *)

Lemma digit_value_digit_char (d : nat) :
  (d < 10)%nat -> digit_value 10 (digit_char d) = Some (Z.of_nat d).
Proof.
  intros H. do 10 (destruct d as [|d]; [reflexivity|]). lia.
Qed.

Lemma digit_char_plain (d : nat) (r : string) :
  (d < 10)%nat ->
  trim_start (String (digit_char d) r) = String (digit_char d) r /\
  strip_sign (String (digit_char d) r) = (1%Z, String (digit_char d) r).
Proof.
  intros H. do 10 (destruct d as [|d]; [split; reflexivity|]). lia.
Qed.

Lemma strip_hex_numeral (ds : list nat) :
  Forall (fun d => (d < 10)%nat) ds -> strip_hex (numeral ds) = (10%Z, numeral ds).
Proof.
  intros H. destruct H as [|d rest Hd Hrest]; [reflexivity|].
  destruct Hrest as [|d' rest' Hd' _].
  - do 10 (destruct d as [|d]; [reflexivity|]). lia.
  - do 10 (destruct d as [|d];
           [do 10 (destruct d' as [|d']; [reflexivity|]); lia|]). lia.
Qed.

Lemma digits_numeral (ds : list nat) (a : Z) :
  Forall (fun d => (d < 10)%nat) ds ->
  digits 10 (Some a) (numeral ds)
  = Some (fold_left (fun a d => (a * 10 + Z.of_nat d)%Z) ds a).
Proof.
  intros H. revert a. induction H as [|d rest Hd _ IH]; intros a; [reflexivity|].
  cbn [numeral digits fold_left].
  rewrite (digit_value_digit_char d Hd). apply IH.
Qed.

Lemma mathInt_numeral (ds : list nat) :
  ds <> [] -> Forall (fun d => (d < 10)%nat) ds ->
  mathInt (numeral ds) = Some (denoted ds) /\
  mathInt (String "-"%char (numeral ds)) = Some (- denoted ds)%Z.
Proof.
  intros Hne H.
  assert (D : digits 10 None (numeral ds) = Some (denoted ds)).
  { destruct H as [|d rest Hd Hrest]; [contradiction|].
    unfold denoted. cbn [numeral digits fold_left].
    rewrite (digit_value_digit_char d Hd). rewrite Z.mul_0_l, Z.add_0_l.
    now apply digits_numeral. }
  pose proof (strip_hex_numeral ds H) as X.
  split.
  - unfold mathInt.
    destruct ds as [|d rest]; [contradiction|].
    pose proof (Forall_inv H) as Hd.
    destruct (digit_char_plain d (numeral rest) Hd) as [T S].
    cbn [numeral] in *. rewrite T, S, X, D. now rewrite Z.mul_1_l.
  - unfold mathInt. cbn [trim_start is_space].
    change (is_space "-"%char) with false. cbv iota.
    cbn [strip_sign]. rewrite X, D. f_equal; lia.
Qed.

Lemma toNumber_exact (n : Z) : (Z.abs n < 2 ^ 53)%Z -> toNumber n = n.
Proof.
  intros H. unfold toNumber.
  destruct (Z.ltb_spec (Z.abs n) (2 ^ 53)); [reflexivity|lia].
Qed.

Lemma denoted_nonneg_from (ds : list nat) (a : Z) :
  (0 <= a)%Z -> (0 <= fold_left (fun a d => (a * 10 + Z.of_nat d)%Z) ds a)%Z.
Proof.
  revert a; induction ds as [|d rest IH]; intros a Ha; simpl; [assumption|].
  apply IH. lia.
Qed.

Lemma parseInt_numeral (ds : list nat) :
  ds <> [] -> Forall (fun d => (d < 10)%nat) ds -> (denoted ds < 2 ^ 53)%Z ->
  parseInt (numeral ds) = Some (denoted ds) /\
  parseInt (String "-"%char (numeral ds)) = Some (- denoted ds)%Z.
Proof.
  intros Hne H B. unfold parseInt.
  destruct (mathInt_numeral ds Hne H) as [-> ->].
  pose proof (denoted_nonneg_from ds 0 (Z.le_refl 0)) as P. fold (denoted ds) in P.
  rewrite !toNumber_exact by lia. split; reflexivity.
Qed.

(** *** Short texts give finite numbers *)

Lemma digit_value_range (radix : Z) (c : ascii) (d : Z) :
  digit_value radix c = Some d -> (0 <= d < radix)%Z.
Proof.
  unfold digit_value.
  set (k := Z.of_nat (nat_of_ascii c)).
  destruct ((48 <=? k) && (k <=? 57))%Z eqn:A;
    [|destruct ((97 <=? k) && (k <=? 122))%Z eqn:B;
      [|destruct ((65 <=? k) && (k <=? 90))%Z eqn:C; [|discriminate]]];
    match goal with
    | H : (_ && _)%bool = true |- _ =>
        apply andb_prop in H as [H1 H2];
        apply Z.leb_le in H1; apply Z.leb_le in H2
    end;
    match goal with
    | |- context [(?v <? radix)%Z] =>
        destruct (Z.ltb_spec v radix); [|discriminate]
    end;
    intros [= <-]; lia.
Qed.

Lemma digits_bound (radix : Z) (s : string) (acc : option Z) (n : Z) :
  (2 <= radix)%Z ->
  match acc with Some a => (0 <= a)%Z | None => True end ->
  digits radix acc s = Some n ->
  (0 <= n)%Z /\
  (n + 1 <= (match acc with Some a => a | None => 0 end + 1)
            * radix ^ Z.of_nat (String.length s))%Z.
Proof.
  intros Hr. revert acc.
  induction s as [|c r IH]; intros acc Ha E.
  - simpl in E. subst acc. simpl. split; lia.
  - cbn [digits] in E.
    assert (P : (1 <= radix ^ Z.of_nat (String.length r))%Z).
    { apply (Z.pow_le_mono_r radix 0); lia. }
    replace (Z.of_nat (String.length (String c r)))
      with (Z.succ (Z.of_nat (String.length r))) by (simpl; lia).
    rewrite Z.pow_succ_r by lia.
    destruct (digit_value radix c) as [d|] eqn:D.
    + apply digit_value_range in D.
      apply IH in E.
      * destruct E as [E0 E1]. split; [assumption|].
        destruct acc as [a|]; nia.
      * destruct acc as [a|]; nia.
    + subst acc. split; [assumption|]. nia.
Qed.

Lemma trim_start_length (s : string) :
  (String.length (trim_start s) <= String.length s)%nat.
Proof.
  induction s as [|c r IH]; simpl; [lia|].
  destruct (is_space c); simpl; lia.
Qed.

Lemma strip_sign_spec (s : string) :
  (fst (strip_sign s) = 1 \/ fst (strip_sign s) = -1)%Z /\
  (String.length (snd (strip_sign s)) <= String.length s)%nat.
Proof.
  destruct s as [|c r]; simpl; [split; [now left|lia]|].
  destruct c as [[] [] [] [] [] [] [] []]; simpl; split; auto; lia.
Qed.

Lemma strip_hex_spec (s : string) :
  (fst (strip_hex s) = 10 \/ fst (strip_hex s) = 16)%Z /\
  (String.length (snd (strip_hex s)) <= String.length s)%nat.
Proof.
  destruct s as [|c r]; simpl; [split; [now left|lia]|].
  destruct c as [[] [] [] [] [] [] [] []]; simpl; try (split; [now left|lia]).
  destruct r as [|c' r']; simpl; [split; [now left|lia]|].
  destruct c' as [[] [] [] [] [] [] [] []]; simpl; split; auto; lia.
Qed.

Lemma mathInt_bound (s : string) (n : Z) :
  mathInt s = Some n -> (Z.abs n < 16 ^ Z.of_nat (String.length s))%Z.
Proof.
  unfold mathInt.
  pose proof (trim_start_length s) as L1.
  pose proof (strip_sign_spec (trim_start s)) as [S L2].
  destruct (strip_sign (trim_start s)) as [sign s1]; simpl in S, L2.
  pose proof (strip_hex_spec s1) as [R L3].
  destruct (strip_hex s1) as [radix s2]; simpl in R, L3.
  destruct (digits radix None s2) as [m|] eqn:D; [|discriminate].
  intros [= <-].
  apply digits_bound in D; [|lia|exact I].
  destruct D as [D0 D1]. rewrite Z.add_0_l, Z.mul_1_l in D1.
  assert (P : (radix ^ Z.of_nat (String.length s2)
               <= 16 ^ Z.of_nat (String.length s))%Z).
  { transitivity (16 ^ Z.of_nat (String.length s2))%Z.
    - apply Z.pow_le_mono_l. lia.
    - apply Z.pow_le_mono_r; lia. }
  destruct S as [-> | ->]; lia.
Qed.

Lemma toNumber_bounded (n : Z) : (Z.abs (toNumber n) <= INFINITY)%Z.
Proof.
  assert (B : (2 ^ 53 < INFINITY)%Z) by (vm_compute; reflexivity).
  unfold toNumber.
  destruct (Z.ltb_spec (Z.abs n) (2 ^ 53)) as [L|L]; [lia|].
  set (a := Z.abs n) in *.
  assert (Ha : (0 < a)%Z) by lia.
  pose proof (Z.log2_spec a Ha) as [Lo Hi].
  assert (L53 : (53 <= Z.log2 a)%Z) by (apply Z.log2_le_pow2; lia).
  set (k := (Z.log2 a - 52)%Z) in *.
  assert (Hk : (0 < 2 ^ k)%Z) by (apply Z.pow_pos_nonneg; lia).
  assert (Hq : (0 <= a / 2 ^ k)%Z) by (apply Z.div_pos; lia).
  set (q := (a / 2 ^ k)%Z) in *.
  assert (S : Z.abs (Z.sgn n) = 1%Z) by lia.
  assert (Hm : forall m, (0 <= m)%Z ->
                 (Z.abs (if (m * 2 ^ k <? INFINITY)%Z
                         then Z.sgn n * (m * 2 ^ k)
                         else Z.sgn n * INFINITY) <= INFINITY)%Z).
  { intros m M.
    destruct (Z.ltb_spec (m * 2 ^ k) INFINITY) as [F|F];
      rewrite Z.abs_mul, S; [nia|lia]. }
  destruct (2 * (a mod 2 ^ k) ?= 2 ^ k)%Z; [destruct (Z.even q)| |]; apply Hm; lia.
Qed.

Lemma parseInt_bounded (v : string) (n : Z) :
  parseInt v = Some n -> (Z.abs n <= INFINITY)%Z.
Proof.
  unfold parseInt. destruct (mathInt v) as [m|]; [|discriminate].
  intros [= <-]. apply toNumber_bounded.
Qed.

(** [toNumber] against the binary64 rounding of [SpecFloat]: exact
    integers, ties to even in both directions, the nearest double to
    10^23 - 1, the largest integer that stays finite and the first that
    does not. *)
Lemma toNumber_examples :
  Forall (fun n => Double.toQ (Double.ofZ n) == inject_Z (toNumber n)
                   /\ Double.isFinite (Double.ofZ n) = isFinite (toNumber n))
    [900; -7; 2 ^ 53 + 1; 2 ^ 53 + 3; - (2 ^ 54 + 6); 10 ^ 23 - 1;
     2 ^ 1024 - 2 ^ 970 - 1]%Z /\
  Forall (fun n => Double.isFinite (Double.ofZ n) = false
                   /\ toNumber n = INFINITY)
    [2 ^ 1024 - 2 ^ 970; 10 ^ 309 - 1]%Z /\
  toNumber (10 ^ 23 - 1) = 99999999999999991611392%Z.
Proof.
  split; [|split]; [| |vm_compute; reflexivity];
    repeat (apply Forall_cons; [split; vm_compute; reflexivity|]);
    apply Forall_nil.
Qed.

Lemma toNumber_finite (n : Z) :
  (Z.abs n < 2 ^ 1020)%Z -> isFinite (toNumber n) = true.
Proof.
  intros H. unfold isFinite.
  assert (B : (2 ^ 1021 < INFINITY)%Z) by (vm_compute; reflexivity).
  assert (B' : (2 ^ 53 < 2 ^ 1020)%Z) by (vm_compute; reflexivity).
  assert (B'' : (2 * 2 ^ 1020 = 2 ^ 1021)%Z) by (vm_compute; reflexivity).
  apply Z.ltb_lt. unfold toNumber.
  destruct (Z.ltb_spec (Z.abs n) (2 ^ 53)) as [L|L]; [lia|].
  set (a := Z.abs n) in *.
  assert (Ha : (0 < a)%Z) by lia.
  pose proof (Z.log2_spec a Ha) as [Lo Hi].
  assert (L53 : (53 <= Z.log2 a)%Z).
  { apply Z.log2_le_pow2; lia. }
  set (k := (Z.log2 a - 52)%Z) in *.
  assert (Hk : (0 < 2 ^ k)%Z) by (apply Z.pow_pos_nonneg; lia).
  assert (E : (2 ^ Z.succ (Z.log2 a) = 2 ^ 53 * 2 ^ k)%Z).
  { rewrite <- Z.pow_add_r by lia. f_equal. lia. }
  pose proof (Z.div_mod a (2 ^ k) ltac:(lia)) as DM.
  pose proof (Z.mod_pos_bound a (2 ^ k) Hk) as MB.
  set (q := (a / 2 ^ k)%Z) in *. set (r := (a mod 2 ^ k)%Z) in *.
  assert (Hq : (q < 2 ^ 53)%Z) by nia.
  assert (Hq0 : (0 <= q)%Z) by nia.
  assert (Hm : forall m, (m <= q + 1)%Z -> (0 <= m)%Z ->
                 (Z.abs (if (m * 2 ^ k <? INFINITY)%Z
                         then Z.sgn n * (m * 2 ^ k)
                         else Z.sgn n * INFINITY) < INFINITY)%Z).
  { intros m M M0.
    destruct (Z.ltb_spec (m * 2 ^ k) INFINITY) as [F|F].
    - rewrite Z.abs_mul.
      assert (Z.abs (Z.sgn n) = 1)%Z by lia. nia.
    - exfalso.
      assert ((m * 2 ^ k <= 2 ^ 53 * 2 ^ k)%Z) by nia.
      assert (2 ^ 53 * 2 ^ k <= 2 * a)%Z.
      { rewrite <- E. rewrite Z.pow_succ_r by lia. lia. }
      lia. }
  destruct (2 * r ?= 2 ^ k)%Z; [destruct (Z.even q)| |]; apply Hm; lia.
Qed.

Lemma parseInt_finite (v : string) (n : Z) :
  (String.length v <= 255)%nat -> parseInt v = Some n -> isFinite n = true.
Proof.
  intros L. unfold parseInt.
  destruct (mathInt v) as [m|] eqn:M; [|discriminate].
  intros [= <-]. apply toNumber_finite.
  apply mathInt_bound in M.
  assert (P : (16 ^ Z.of_nat (String.length v) <= 16 ^ 255)%Z)
    by (apply Z.pow_le_mono_r; lia).
  assert (Q : (16 ^ 255 = 2 ^ 1020)%Z) by (vm_compute; reflexivity).
  lia.
Qed.

Lemma isFinite_1 : isFinite 1 = true.
Proof. vm_compute; reflexivity. Qed.

Lemma inputValue_finite (v : string) :
  (String.length v <= 255)%nat -> isFinite (inputValue v) = true.
Proof.
  intros L. rewrite inputValue_clamp.
  destruct (parseInt v) as [n|] eqn:P; [|exact isFinite_1].
  pose proof (parseInt_finite v n L P) as F.
  destruct (Z.max_spec 1 n) as [[_ ->] | [_ ->]]; [exact F|exact isFinite_1].
Qed.

Lemma finiteNumbers_policy (a b : State) :
  policy a = policy b -> finiteNumbers a -> finiteNumbers b.
Proof.
  unfold policy, finiteNumbers; intros [= _ _ _ -> -> -> ->]; auto.
Qed.

Lemma handle_finiteNumbers (dom : Dom) (props : Props) (st : State) (ev : Event) :
  shortText ev = true -> finiteNumbers st ->
  finiteNumbers (fst (handle dom props st ev)).
Proof.
  intros Hs FN; pose proof FN as (Hcw & Hch & Hpw & Hph).
  destruct ev; simpl; try assumption.
  - unfold handleMouseDown.
    destruct (containerRef dom); [destruct target|]; assumption.
  - unfold handleMouseMove.
    destruct (containerRef dom); [|assumption].
    destruct (imageRef dom); [|assumption].
    destruct (isDragging st); [assumption|].
    destruct (resizeHandle st); assumption.
  - unfold handleWheel.
    destruct shiftKey; [destruct (imageRef dom); assumption|].
    destruct (lockAspectRatio st); assumption.
  - destruct (lockAspectRatio st && (index <? 8)%nat); assumption.
  - destruct (lockAspectRatio st && isCustomRatio st); assumption.
  - simpl in Hs. apply Nat.leb_le in Hs.
    pose proof (inputValue_finite v Hs).
    destruct (lockAspectRatio st && isCustomRatio st); [|assumption].
    destruct (customMode st); unfold finiteNumbers; simpl; repeat split; assumption.
  - simpl in Hs. apply Nat.leb_le in Hs.
    pose proof (inputValue_finite v Hs).
    destruct (lockAspectRatio st && isCustomRatio st); [|assumption].
    destruct (customMode st); unfold finiteNumbers; simpl; repeat split; assumption.
  - destruct (lockAspectRatio st && isCustomRatio st); [|assumption].
    destruct (customMode st); unfold finiteNumbers; simpl; repeat split; assumption.
  - unfold togglePreview.
    destruct (showPreview st); [assumption|].
    destruct (getCroppedImage dom st); assumption.
  - unfold handleCrop. destruct (getCroppedImage dom st); assumption.
Qed.

Lemma run_finiteNumbers (dom : Dom) (props : Props) (evs : list Event) (st : State) :
  forallb shortText evs = true -> finiteNumbers st ->
  finiteNumbers (fst (run dom props st evs)).
Proof.
  revert st; induction evs as [|ev rest IH]; intros st Hs FN; simpl; [assumption|].
  simpl in Hs. apply andb_prop in Hs as [Hev Hrest].
  pose proof (handle_finiteNumbers dom props st ev Hev FN) as H1.
  unfold step.
  destruct (handle dom props st ev) as [st' out]; simpl in H1.
  assert (H2 : finiteNumbers (effect dom st st')).
  { eapply finiteNumbers_policy; [|exact H1]. symmetry; apply effect_policy. }
  specialize (IH _ Hrest H2).
  destruct (run dom props (effect dom st st') rest) as [st2 out2]; exact IH.
Qed.

Lemma finiteNumbers_initialState : finiteNumbers initialState.
Proof. repeat split; vm_compute; reflexivity. Qed.

Lemma step_input_policy (dom : Dom) (props : Props) (st : State) (v : string) :
  lockAspectRatio st = true -> isCustomRatio st = true ->
  policy (fst (step dom props st (ChangeWidth v))) =
    policy (match customMode st with
            | ratio => setCustomWidth (inputValue v) st
            | pixels => setPixelWidth (inputValue v) st
            end) /\
  policy (fst (step dom props st (ChangeHeight v))) =
    policy (match customMode st with
            | ratio => setCustomHeight (inputValue v) st
            | pixels => setPixelHeight (inputValue v) st
            end).
Proof.
  intros L C. unfold step; simpl. rewrite L, C; simpl.
  split; apply effect_policy.
Qed.

(** C10, as stated, fails.  A run of 309 nines typed into the width input
    denotes an integer beyond the largest double: [parseInt] returns
    Infinity, the clamp keeps it, and the custom ratio, Infinity / 9, is
    not a finite number; after a swap it is 9 / Infinity, which is 0 and
    not positive. *)
Lemma overlong_input_counterexample :
  mathInt (nines 309) = Some (10 ^ 309 - 1)%Z /\
  Double.isFinite (Double.ofZ (10 ^ 309 - 1)) = false /\
  parseInt (nines 309) = Some INFINITY /\
  isCustomRatio overlongInputState = true /\
  customMode overlongInputState = ratio /\
  customWidth overlongInputState = INFINITY /\
  customHeight overlongInputState = 9%Z /\
  isFinite (customWidth overlongInputState) = false /\
  Double.isFinite
    (Double.div (Double.ofZ (customWidth overlongInputState))
       (Double.ofZ (customHeight overlongInputState))) = false /\
  Double.div (Double.ofZ (customHeight overlongInputState))
    (Double.ofZ (customWidth overlongInputState))
  = Double.ofZ 0.
Proof.
  vm_compute. repeat split.
Qed.

(** C10, amended.  Each number input stores
    [Math.max(1, parseInt(text) || 1)]: the number [parseInt] returns when
    it is at least 1, and 1 when the text is not numeric, zero or negative;
    for a decimal numeral below 2^53 that number is the integer the numeral
    denotes.  The value goes to the width or height of the current custom
    mode.  Hence after every sequence of events from the initial state the
    four custom numbers are at least 1 and, as long as they are finite,
    both derived ratios are positive, and the current ratio, when there is
    one, is positive: it is truthy, so every division by it is a division
    by a non-zero number.  When every typed text is shorter than 256
    characters the four numbers are finite; a longer run of digits can give
    Infinity. *)
Theorem custom_inputs_keep_ratio_positive :
  (forall v : string,
     inputValue v = match parseInt v with Some n => Z.max 1 n | None => 1%Z end /\
     (1 <= inputValue v <= INFINITY)%Z) /\
  (forall ds : list nat,
     ds <> [] -> Forall (fun d => (d < 10)%nat) ds -> (denoted ds < 2 ^ 53)%Z ->
     parseInt (numeral ds) = Some (denoted ds) /\
     inputValue (numeral ds) = Z.max 1 (denoted ds) /\
     inputValue (String "-" (numeral ds)) = 1%Z) /\
  (forall (dom : Dom) (props : Props) (st : State) (v : string),
     lockAspectRatio st = true -> isCustomRatio st = true ->
     let w := fst (step dom props st (ChangeWidth v)) in
     let h := fst (step dom props st (ChangeHeight v)) in
     match customMode st with
     | ratio => customWidth w = inputValue v /\ customHeight h = inputValue v
     | pixels => pixelWidth w = inputValue v /\ pixelHeight h = inputValue v
     end) /\
  (forall (dom : Dom) (props : Props) (evs : list Event),
     let st := fst (run dom props initialState evs) in
     ((1 <= customWidth st)%Z /\ (1 <= customHeight st)%Z /\
      (1 <= pixelWidth st)%Z /\ (1 <= pixelHeight st)%Z) /\
     (finiteNumbers st ->
      0 < customRatioValue st /\
      0 < inject_Z (pixelWidth st) / inject_Z (pixelHeight st) /\
      (forall r : Q,
         currentRatio st = Some r ->
         0 < r /\ activeRatio (currentRatio st) = Some r)) /\
     (forallb shortText evs = true -> finiteNumbers st)).
Proof.
  split; [|split; [|split]].
  - intros v. split; [apply inputValue_clamp|].
    assert (B : (1 < INFINITY)%Z) by (vm_compute; reflexivity).
    rewrite inputValue_clamp.
    destruct (parseInt v) as [n|] eqn:P; [|lia].
    apply parseInt_bounded in P. lia.
  - intros ds Hne Hd Hb.
    destruct (parseInt_numeral ds Hne Hd Hb) as [P N].
    pose proof (denoted_nonneg_from ds 0 (Z.le_refl 0)) as D. fold (denoted ds) in D.
    rewrite !inputValue_clamp, P, N. repeat split; lia.
  - intros dom props st v L C.
    destruct (step_input_policy dom props st v L C) as [W H].
    cbv zeta. unfold policy in W, H.
    destruct (customMode st); simpl in W, H;
      injection W as _ _ _ W1 W2 W3 W4; injection H as _ _ _ H1 H2 H3 H4;
      split; assumption.
  - intros dom props evs st.
    pose proof (run_wellFormed dom props evs initialState wellFormed_initialState)
      as WF.
    fold st in WF. pose proof WF as (Hi & Hcw & Hch & Hpw & Hph).
    split; [repeat split; assumption|].
    split.
    + intros _.
      split; [apply Qdiv_pos; now apply inject_Z_pos|].
      split; [apply Qdiv_pos; now apply inject_Z_pos|].
      intros r H. split; [eapply wellFormed_ratio_pos; eauto|].
      rewrite H. apply activeRatio_pos. eapply wellFormed_ratio_pos; eauto.
    + intros Hs. apply run_finiteNumbers; [exact Hs|exact finiteNumbers_initialState].
Qed.

Lemma custom_inputs_keep_ratio_positive_witness :
  inputValue "900" = 900%Z /\ inputValue "0" = 1%Z /\ inputValue "-900" = 1%Z.
Proof.
  destruct custom_inputs_keep_ratio_positive as (_ & H & _).
  destruct (H [9; 0; 0]%nat) as (_ & A & B);
    [discriminate|repeat constructor|reflexivity|].
  destruct (H [0]%nat) as (_ & A0 & _);
    [discriminate|repeat constructor|reflexivity|].
  split; [exact A|]. split; [exact A0|exact B].
Defined.

(** ** The rasterizer *)

Lemma canvasDimension_kept (default v : Z) :
  (0 <= v <= 2147483647)%Z -> canvasDimension default v = v.
Proof.
  intros H. unfold canvasDimension, isFinite.
  assert (B : (2147483647 < INFINITY)%Z) by (vm_compute; reflexivity).
  assert (B' : (2147483647 < 2 ^ 32)%Z) by (vm_compute; reflexivity).
  destruct (Z.ltb_spec (Z.abs v) INFINITY) as [F|F]; [|lia].
  rewrite Z.mod_small by lia.
  destruct (Z.leb_spec v 2147483647); [reflexivity|lia].
Qed.

Lemma canvasDimension_default (default v : Z) :
  (2147483647 < v < 4294967296)%Z -> canvasDimension default v = default.
Proof.
  intros H. unfold canvasDimension, isFinite.
  assert (B : (4294967296 < INFINITY)%Z) by (vm_compute; reflexivity).
  assert (B' : (4294967296 = 2 ^ 32)%Z) by (vm_compute; reflexivity).
  destruct (Z.ltb_spec (Z.abs v) INFINITY) as [F|F]; [|lia].
  rewrite Z.mod_small by lia.
  destruct (Z.leb_spec v 2147483647); [lia|reflexivity].
Qed.

Lemma getCroppedImage_available (dom : Dom) (st : State) (img : ImageElement) :
  context2d dom = true -> imageRef dom = Some img ->
  exists c,
    getCroppedImage dom st = Some c /\
    destSize c =
      (if pixelMode st then (pixelWidth st, pixelHeight st)
       else (Math_round (width (cropBox st) * scaleX img),
             Math_round (height (cropBox st) * scaleY img))) /\
    sourceRect c = toSource Math_round (scaleX img) (scaleY img) (cropBox st) /\
    (canvasWidth c, canvasHeight c) =
      (canvasDimension 300 (destWidth (drawn c)),
       canvasDimension 150 (destHeight (drawn c))).
Proof.
  intros Hc Hi; unfold getCroppedImage, getCroppedImageIn; rewrite Hc, Hi; simpl.
  destruct (pixelMode st); eexists; repeat split.
Qed.

Lemma getCroppedImageIn_binary64 (dom : Dom) (st : State) (img : ImageElement) :
  context2d dom = true -> imageRef dom = Some img ->
  exists c,
    getCroppedImageIn binary64 dom st = Some c /\
    destSize c =
      (if pixelMode st then (pixelWidth st, pixelHeight st)
       else (sourceWidth (drawn c), sourceHeight (drawn c))) /\
    sourceRect c = roundEach Math_round (products img (cropBox st)) /\
    (canvasWidth c, canvasHeight c) =
      (canvasDimension 300 (destWidth (drawn c)),
       canvasDimension 150 (destHeight (drawn c))).
Proof.
  intros Hc Hi; unfold getCroppedImageIn; rewrite Hc, Hi; simpl.
  destruct (pixelMode st); eexists; repeat split.
Qed.

(** Whether a canvas is delivered does not depend on the arithmetic, nor
    do the size of the canvas and the destination of the copy in pixel
    mode. *)
Lemma getCroppedImageIn_shape (ar : Arithmetic) (dom : Dom) (st : State) :
  match getCroppedImageIn ar dom st, getCroppedImage dom st with
  | Some c, Some c' =>
      pixelMode st = true ->
      (canvasWidth c, canvasHeight c) = (canvasWidth c', canvasHeight c') /\
      destSize c = destSize c'
  | None, None => True
  | _, _ => False
  end.
Proof.
  unfold getCroppedImage, getCroppedImageIn.
  destruct (context2d dom); simpl; [|exact I].
  destruct (imageRef dom) as [img|]; [|exact I].
  destruct (pixelMode st); [|discriminate].
  intros _. split; reflexivity.
Qed.

Lemma Math_round_bounds (v : Q) :
  inject_Z (Math_round v) - (1 # 2) <= v /\ v < inject_Z (Math_round v) + (1 # 2).
Proof.
  unfold Math_round.
  pose proof (Qfloor_le (v + (1 # 2))) as Hl.
  pose proof (Qlt_floor (v + (1 # 2))) as Hu.
  rewrite inject_Z_plus in Hu. change (inject_Z 1) with 1 in Hu.
  split; lra.
Qed.

Lemma Math_round_nonneg (v : Q) : 0 <= v -> Math_round v = round_half_away v.
Proof.
  intros Hv; unfold round_half_away, Math_round.
  destruct (Qlt_le_dec v 0); [exfalso; lra|reflexivity].
Qed.

Lemma scale_nonneg (img : ImageElement) :
  Displayed img -> 0 < scaleX img /\ 0 < scaleY img.
Proof.
  intros (Hw & Hh & Hnw & Hnh); unfold scaleX, scaleY.
  split; apply Qdiv_pos; try assumption; apply inject_Z_pos; lia.
Qed.

(** *** Signs in binary64 *)

Lemma round_sign (s : bool) (m e : Z) (l : SpecFloat.location) :
  Double.negative (SpecFloat.binary_round_aux Double.prec Double.emax s m e l) = s \/
  SpecFloat.binary_round_aux Double.prec Double.emax s m e l = SpecFloat.S754_nan.
Proof.
  unfold SpecFloat.binary_round_aux.
  destruct (SpecFloat.shr_fexp _ _ m e l) as [mrs e'].
  destruct (SpecFloat.shr_fexp _ _ _ e' _) as [mrs' e''].
  destruct (SpecFloat.shr_m mrs') as [|p|p]; [now left| |now right].
  destruct (e'' <=? _)%Z; now left.
Qed.

Lemma mul_nonneg (a b : Double.double) :
  Double.negative a = false -> Double.negative b = false ->
  Double.negative (Double.mul a b) = false.
Proof.
  intros Ha Hb. unfold Double.mul, SpecFloat.SFmul.
  destruct a as [sa|sa| |sa ma ea], b as [sb|sb| |sb mb eb]; simpl in *; subst;
    try reflexivity.
  destruct (round_sign (xorb false false) (Z.pos (ma * mb)) (ea + eb)
              SpecFloat.loc_Exact) as [H|H]; rewrite H; reflexivity.
Qed.

Lemma div_nonneg (a b : Double.double) :
  Double.negative a = false -> Double.negative b = false ->
  Double.negative (Double.div a b) = false.
Proof.
  intros Ha Hb. unfold Double.div, SpecFloat.SFdiv.
  destruct a as [sa|sa| |sa ma ea], b as [sb|sb| |sb mb eb]; simpl in *; subst;
    try reflexivity.
  destruct (SpecFloat.SFdiv_core_binary _ _ _ _ _ _) as [[mz ez] lz].
  destruct (round_sign (xorb false false) mz ez lz) as [H|H]; rewrite H; reflexivity.
Qed.

Lemma ofQ_nonneg (q : Q) : 0 <= q -> Double.negative (Double.ofQ q) = false.
Proof.
  intros H. unfold Double.ofQ. apply div_nonneg; [|reflexivity].
  destruct q as [n d]. unfold Qle in H; simpl in H.
  destruct n; simpl; try reflexivity. lia.
Qed.

Lemma toQ_nonneg (d : Double.double) :
  Double.negative d = false -> 0 <= Double.toQ d.
Proof.
  destruct d as [s|s| |s m e]; cbn [Double.negative Double.toQ];
    try (intros; lra).
  intros ->. destruct e as [|p|p].
  - assert (0 <= 2 ^ 0)%Z by (apply Z.pow_nonneg; lia).
    unfold Qle; cbn [Qnum Qden inject_Z]. nia.
  - assert (0 <= 2 ^ Z.pos p)%Z by (apply Z.pow_nonneg; lia).
    unfold Qle; cbn [Qnum Qden inject_Z]. nia.
  - unfold Qle; cbn [Qnum Qden]. lia.
Qed.

Lemma products_nonneg (img : ImageElement) (cb : CropBox) :
  Displayed img ->
  0 <= x cb -> 0 <= y cb -> 0 <= width cb -> 0 <= height cb ->
  roundEach Math_round (products img cb)
  = roundEach round_half_away (products img cb).
Proof.
  intros (HW & HH & Hnw & Hnh) Hx Hy Hw Hh.
  assert (SX : Double.negative
                 (Double.div (Double.ofZ (naturalWidth img))
                    (Double.ofQ (imgWidth img))) = false).
  { apply div_nonneg; apply ofQ_nonneg; [|lra].
    unfold Qle; simpl; lia. }
  assert (SY : Double.negative
                 (Double.div (Double.ofZ (naturalHeight img))
                    (Double.ofQ (imgHeight img))) = false).
  { apply div_nonneg; apply ofQ_nonneg; [|lra].
    unfold Qle; simpl; lia. }
  unfold products, roundEach.
  rewrite !Math_round_nonneg; [reflexivity| | | |];
    apply toQ_nonneg, mul_nonneg; try assumption; now apply ofQ_nonneg.
Qed.

(** C3, as stated, fails in two ways.  In [recentredTargetState] the
    800 x 800 target is active and the box has x = -5/2 at scale 1: the
    commit samples from x = -2, where the [toSource] of the specification,
    rounding half away from zero, gives -3.  In [hugeTargetState] the target
    width 3000000000 exceeds what a canvas dimension can hold, and the
    canvas is 300 wide. *)
Lemma pixel_target_counterexample :
  (pixelMode recentredTargetState = true /\
   lockAspectRatio recentredTargetState = true /\
   x (cropBox recentredTargetState) == - (5 # 2) /\
   exists c,
     getCroppedImageIn binary64 squareDom recentredTargetState = Some c /\
     getCroppedImage squareDom recentredTargetState = Some c /\
     sourceX (drawn c) = (-2)%Z /\
     sourceRect c <>
       toSource round_half_away (scaleX squareImage) (scaleY squareImage)
         (cropBox recentredTargetState)) /\
  (pixelMode hugeTargetState = true /\
   pixelWidth hugeTargetState = 3000000000%Z /\
   exists c,
     getCroppedImageIn binary64 squareDom hugeTargetState = Some c /\
     canvasWidth c = 300%Z /\ canvasWidth c <> pixelWidth hugeTargetState).
Proof.
  split.
  - vm_compute. repeat split. eexists; repeat split. discriminate.
  - vm_compute. repeat split. eexists; repeat split. discriminate.
Qed.

(** C3, amended.  In pixel mode [drawImage] is asked to fill
    [pixelWidth] x [pixelHeight], whatever the crop box is, and the canvas
    has exactly that size when both numbers are at most 2147483647, the
    largest dimension of a canvas; a larger number below 2^32 leaves the
    dimension at its default, 300 or 150.  The source rectangle is the
    projection of the crop box that every commit uses: on a displayed
    image, with the display size and the box held as doubles and finite
    products, each field is the [Math.round] of its binary64 product with
    the scale, the same for every policy; so the proportions of the sampled
    region and of the output can differ, as they do after the box of the
    1920 x 1080 target is dragged to its minimal width. *)
Theorem pixel_target_output_exact :
  (forall (dom : Dom) (st : State) (img : ImageElement),
     pixelMode st = true -> context2d dom = true -> imageRef dom = Some img ->
     exists c,
       getCroppedImageIn binary64 dom st = Some c /\
       destSize c = (pixelWidth st, pixelHeight st) /\
       ((1 <= pixelWidth st <= 2147483647)%Z -> canvasWidth c = pixelWidth st) /\
       ((1 <= pixelHeight st <= 2147483647)%Z -> canvasHeight c = pixelHeight st) /\
       ((2147483647 < pixelWidth st < 4294967296)%Z -> canvasWidth c = 300%Z) /\
       ((2147483647 < pixelHeight st < 4294967296)%Z -> canvasHeight c = 150%Z) /\
       (Displayed img -> heldAsDoubles img (cropBox st) = true ->
        allFinite (products img (cropBox st)) = true ->
        sourceRect c = roundEach Math_round (products img (cropBox st)) /\
        forall (st' : State) (c' : Canvas),
          cropBox st' = cropBox st ->
          getCroppedImageIn binary64 dom st' = Some c' ->
          sourceRect c' = sourceRect c)) /\
  (exists c,
     getCroppedImageIn binary64 squareDom narrowTargetState = Some c /\
     pixelMode narrowTargetState = true /\
     (canvasWidth c, canvasHeight c) = (1920, 1080)%Z /\
     (sourceWidth (drawn c), sourceHeight (drawn c)) = (50, 28)%Z /\
     (sourceWidth (drawn c) * canvasHeight c
        <> sourceHeight (drawn c) * canvasWidth c)%Z).
Proof.
  split.
  - intros dom st img Hp Hc Hi.
    destruct (getCroppedImageIn_binary64 dom st img Hc Hi) as (c & G & D & S & T).
    rewrite Hp in D. pose proof D as D'. unfold destSize in D'.
    injection D' as Dw Dh. rewrite Dw, Dh in T. injection T as Tw Th.
    exists c. split; [exact G|]. split; [exact D|].
    split; [intros B; rewrite Tw; apply canvasDimension_kept; lia|].
    split; [intros B; rewrite Th; apply canvasDimension_kept; lia|].
    split; [intros B; rewrite Tw; now apply canvasDimension_default|].
    split; [intros B; rewrite Th; now apply canvasDimension_default|].
    intros _ _ _. split; [exact S|].
    intros st' c' E G'.
    destruct (getCroppedImageIn_binary64 dom st' img Hc Hi) as (c2 & G2 & _ & S2 & _).
    rewrite G' in G2. injection G2 as <-. now rewrite S, S2, E.
  - vm_compute. eexists; repeat split. discriminate.
Qed.

Lemma pixel_target_output_exact_witness :
  exists c,
    getCroppedImageIn binary64 squareDom narrowTargetState = Some c /\
    canvasWidth c = 1920%Z /\ canvasHeight c = 1080%Z /\
    sourceRect c = (100, 275, 50, 28)%Z.
Proof.
  assert (P : pixelMode narrowTargetState = true) by (vm_compute; reflexivity).
  assert (W : (1 <= pixelWidth narrowTargetState <= 2147483647)%Z)
    by (vm_compute; split; discriminate).
  assert (H : (1 <= pixelHeight narrowTargetState <= 2147483647)%Z)
    by (vm_compute; split; discriminate).
  assert (D : Displayed squareImage) by (repeat split; reflexivity).
  assert (R : heldAsDoubles squareImage (cropBox narrowTargetState) = true)
    by (vm_compute; reflexivity).
  assert (F : allFinite (products squareImage (cropBox narrowTargetState)) = true)
    by (vm_compute; reflexivity).
  destruct (proj1 pixel_target_output_exact squareDom narrowTargetState
              squareImage P eq_refl eq_refl)
    as (c & G & _ & Cw & Ch & _ & _ & S).
  exists c. split; [exact G|]. split; [exact (Cw W)|]. split; [exact (Ch H)|].
  exact (proj1 (S D R F)).
Defined.

Lemma currentRatio_unlocked (st : State) :
  lockAspectRatio st = false -> currentRatio st = None.
Proof. unfold currentRatio; now intros ->. Qed.

(** C4 (the code departs from the claim).  After Custom and Pixels are
    selected and the lock is then switched off, the current ratio is [null],
    yet [getCroppedImage] still takes the pixel branch: the canvas is
    1920 x 1080 although the sampled region is 800 x 450 source pixels, so
    the output is a stretched copy, not a direct one. *)
Theorem unlocked_commit_keeps_pixel_target :
  let st := fst (run squareDom (mkProps true) initialState
                   [ImageLoad; ClickRatio 7; ClickMode pixels; ClickLock]) in
  lockAspectRatio st = false /\
  currentRatio st = None /\
  exists c,
    getCroppedImage squareDom st = Some c /\
    (canvasWidth c, canvasHeight c) = (1920, 1080)%Z /\
    (sourceWidth (drawn c), sourceHeight (drawn c)) = (800, 450)%Z /\
    (Math_round (width (cropBox st) * scaleX squareImage),
     Math_round (height (cropBox st) * scaleY squareImage))
      = (800, 450)%Z.
Proof.
  vm_compute. repeat split. eexists; repeat split.
Qed.

(** C7, as stated, fails: in [recentredState], at x = -5/2 and scale 1, [Math.round] gives -2
    where rounding half away from zero gives -3. *)
Lemma half_away_rounding_counterexample :
  pixelMode recentredState = false /\
  x (cropBox recentredState) == - (5 # 2) /\
  exists c,
    getCroppedImage squareDom recentredState = Some c /\
    sourceX (drawn c) = (-2)%Z /\
    round_half_away
      (x (cropBox recentredState) * scaleX squareImage)
      = (-3)%Z /\
    sourceRect c <>
      toSource round_half_away (scaleX squareImage)
        (scaleY squareImage) (cropBox recentredState).
Proof.
  vm_compute. repeat split. eexists; repeat split. discriminate.
Qed.

(** C7, amended.  Outside pixel mode, on a displayed image, with the
    display size and the box held as doubles and when the four products are
    numbers, [drawImage] copies the source rectangle to a destination of
    the same width and height, and the canvas has that size as long as it
    is a size a canvas can have.  Each field of the source
    rectangle is rounded by itself: it is the [Math.round] of the binary64
    product of the box field and the scale of its axis, the nearest integer
    with ties towards +infinity.  On a value that is not negative this is
    rounding half away from zero, so for a box with no negative field the
    source rectangle is the half-away rounding of the same four products. *)
Theorem commit_rounds_each_field (dom : Dom) (st : State) (img : ImageElement) :
  pixelMode st = false -> context2d dom = true -> imageRef dom = Some img ->
  Displayed img -> heldAsDoubles img (cropBox st) = true ->
  allFinite (products img (cropBox st)) = true ->
  exists c,
    getCroppedImageIn binary64 dom st = Some c /\
    sourceRect c = roundEach Math_round (products img (cropBox st)) /\
    destSize c = (sourceWidth (drawn c), sourceHeight (drawn c)) /\
    (canvasWidth c, canvasHeight c) =
      (canvasDimension 300 (sourceWidth (drawn c)),
       canvasDimension 150 (sourceHeight (drawn c))) /\
    ((0 <= sourceWidth (drawn c) <= 2147483647)%Z ->
     canvasWidth c = sourceWidth (drawn c)) /\
    ((0 <= sourceHeight (drawn c) <= 2147483647)%Z ->
     canvasHeight c = sourceHeight (drawn c)) /\
    (forall v : Q,
       inject_Z (Math_round v) - (1 # 2) <= v < inject_Z (Math_round v) + (1 # 2)) /\
    (forall v : Q, 0 <= v -> Math_round v = round_half_away v) /\
    (0 <= x (cropBox st) -> 0 <= y (cropBox st) ->
     0 <= width (cropBox st) -> 0 <= height (cropBox st) ->
     sourceRect c = roundEach round_half_away (products img (cropBox st))).
Proof.
  intros Hp Hc Hi HD _ _.
  destruct (getCroppedImageIn_binary64 dom st img Hc Hi) as (c & G & D & S & T).
  rewrite Hp in D. pose proof D as D'. unfold destSize in D'.
  injection D' as Dw Dh. rewrite Dw, Dh in T. pose proof T as T'.
  injection T' as Tw Th.
  exists c.
  split; [exact G|]. split; [exact S|]. split; [exact D|]. split; [exact T|].
  split; [intros B; rewrite Tw; now apply canvasDimension_kept|].
  split; [intros B; rewrite Th; now apply canvasDimension_kept|].
  split; [apply Math_round_bounds|]. split; [apply Math_round_nonneg|].
  intros Hx Hy Hw Hh. rewrite S. now apply products_nonneg.
Qed.

Lemma commit_rounds_each_field_witness :
  exists c,
    getCroppedImageIn binary64 scaledDom scaledLoadedState = Some c /\
    sourceRect c = (100, 276, 804, 452)%Z /\
    (canvasWidth c, canvasHeight c) = (804, 452)%Z.
Proof.
  assert (P : pixelMode scaledLoadedState = false) by (vm_compute; reflexivity).
  assert (D : Displayed scaledImage) by (repeat split; reflexivity).
  assert (R : heldAsDoubles scaledImage (cropBox scaledLoadedState) = true)
    by (vm_compute; reflexivity).
  assert (F : allFinite (products scaledImage (cropBox scaledLoadedState)) = true)
    by (vm_compute; reflexivity).
  destruct (commit_rounds_each_field scaledDom scaledLoadedState scaledImage
              P eq_refl eq_refl D R F)
    as (c & G & S & _ & T & _).
  exists c. split; [exact G|]. split; [exact S|].
  rewrite T.
  assert (Sw : sourceWidth (drawn c) = 804%Z)
    by exact (f_equal (fun r => snd (fst r)) S).
  assert (Sh : sourceHeight (drawn c) = 452%Z)
    by exact (f_equal (fun r => snd r) S).
  rewrite Sw, Sh. reflexivity.
Defined.

(** ** Initialisation of the crop box *)

Lemma Qdiv_mult_cancel (a r : Q) : 0 < r -> (a / r) * r == a.
Proof. intros Hr. field. lra. Qed.

Lemma ratioBoxSize_spec (img : ImageElement) (cr : option Q) :
  0 < imgWidth img -> 0 < imgHeight img ->
  (forall r, cr = Some r -> 0 < r) ->
  let W := imgWidth img * (8 # 10) in
  let H := imgHeight img * (8 # 10) in
  let bw := fst (ratioBoxSize img cr) in
  let bh := snd (ratioBoxSize img cr) in
  match cr with
  | Some r =>
      (W / r <= H /\ bw == W /\ bh == W / r) \/
      (H < W / r /\ bh == H /\ bw == H * r)
  | None => bw == W /\ bh == H
  end /\
  bw <= W /\ bh <= H /\ 0 < bw /\ 0 < bh.
Proof.
  intros Hw Hh Hr W H.
  unfold ratioBoxSize. fold W H.
  destruct cr as [r|].
  - specialize (Hr r eq_refl). rewrite (activeRatio_pos r Hr).
    pose proof (Qdiv_mult_cancel W r Hr) as E.
    assert (HW : 0 < W) by (unfold W; lra).
    assert (HH : 0 < H) by (unfold H; lra).
    assert (Hq : 0 < W / r) by (apply Qdiv_pos; assumption).
    revert E Hq. generalize (W / r). intros q E Hq.
    destruct (gt q H) eqn:G; simpl.
    + apply gt_true in G. split; [right; repeat split; lra|].
      repeat split; nra.
    + apply gt_false in G. split; [left; repeat split; lra|].
      repeat split; lra.
  - simpl. assert (G : gt H H = false) by (apply gt_false; lra).
    rewrite G; simpl. unfold W, H. repeat split; lra.
Qed.

Lemma centred_spec (img : ImageElement) (bw bh : Q) :
  let b := centred img (bw, bh) in
  width b = bw /\ height b = bh /\
  x b == (imgWidth img - width b) / 2 /\
  y b == (imgHeight img - height b) / 2.
Proof. simpl; repeat split; reflexivity. Qed.


(** C5.  Outside pixel mode, on a display of positive size and with a
    positive ratio or none, the initial box takes 80% of the display width
    and the height the ratio gives (80% of the display height without a
    ratio); when that height exceeds 80% of the display height the box takes
    80% of the display height and the width the ratio gives.  Either way it
    is centred and exceeds 80% of neither display dimension.  For a
    1000 x 1000 display and 16:9 this is 800 x 450 at (100, 275); for
    1000 x 300 and 16:9 it is 1280/3 x 240 at (860/3, 30), that is
    426.67 x 240 at (286.67, 30) to two decimals. *)
Theorem ratio_initialization_within_80_percent :
  (forall (img : ImageElement) (cr : option Q),
     0 < imgWidth img -> 0 < imgHeight img ->
     (forall r, cr = Some r -> 0 < r) ->
     let W := imgWidth img * (8 # 10) in
     let H := imgHeight img * (8 # 10) in
     forall st : State,
       pixelMode st = false -> currentRatio st = cr ->
       let b := initialBox st img in
       match cr with
       | Some r =>
           (W / r <= H /\ width b == W /\ height b == W / r) \/
           (H < W / r /\ height b == H /\ width b == H * r)
       | None => width b == W /\ height b == H
       end /\
       width b <= W /\ height b <= H /\
       x b == (imgWidth img - width b) / 2 /\
       y b == (imgHeight img - height b) / 2) /\
  (let b := cropBox (initializeCropBox squareDom initialState) in
   currentRatio initialState = Some (16 / 9) /\
   width b == 800 /\ height b == 450 /\ x b == 100 /\ y b == 275) /\
  (let b := cropBox (initializeCropBox wideDom initialState) in
   height b == 240 /\
   width b == 1280 # 3 /\ Qabs (width b - (42667 # 100)) <= 5 # 1000 /\
   x b == 860 # 3 /\ Qabs (x b - (28667 # 100)) <= 5 # 1000 /\
   y b == 30).
Proof.
  split; [|split].
  - intros img cr Hw Hh Hr W H st Hp Hc b.
    pose proof (ratioBoxSize_spec img cr Hw Hh Hr) as (Hshape & HW & HH & _ & _).
    unfold b, initialBox. rewrite Hp, Hc.
    destruct (ratioBoxSize img cr) as [bw bh] eqn:E.
    pose proof (centred_spec img bw bh) as (-> & -> & Hx & Hy).
    simpl in Hshape, HW, HH. fold W H in Hshape, HW, HH.
    repeat split; assumption.
  - vm_compute. repeat split; discriminate.
  - vm_compute. repeat split; discriminate.
Qed.

Lemma ratio_initialization_within_80_percent_witness :
  width (initialBox initialState squareImage) <= imgWidth squareImage * (8 # 10).
Proof.
  destruct (proj1 ratio_initialization_within_80_percent squareImage
              (Some (16 / 9))) with (st := initialState)
    as (_ & H & _); try reflexivity.
  - intros r [= <-]; reflexivity.
  - exact H.
Defined.

Lemma pixelBoxSize_spec (img : ImageElement) (pw ph : Z) :
  Displayed img -> (1 <= pw)%Z -> (1 <= ph)%Z ->
  let cw := inject_Z pw / scaleX img in
  let ch := inject_Z ph / scaleY img in
  let k := Math_min (imgWidth img / cw) (imgHeight img / ch) * (8 # 10) in
  let bw := fst (pixelBoxSize img pw ph) in
  let bh := snd (pixelBoxSize img pw ph) in
  (imgWidth img < cw \/ imgHeight img < ch ->
   bw == cw * k /\ bh == ch * k /\ bw * ch == bh * cw /\
   bw <= imgWidth img * (8 # 10) /\ bh <= imgHeight img * (8 # 10)) /\
  (cw <= imgWidth img /\ ch <= imgHeight img -> bw == cw /\ bh == ch) /\
  0 < bw <= imgWidth img /\ 0 < bh <= imgHeight img.
Proof.
  intros HD Hpw Hph cw ch k.
  pose proof HD as (Hw & Hh & _ & _).
  destruct (scale_nonneg img HD) as [Hsx Hsy].
  assert (Hcw : 0 < cw) by (apply Qdiv_pos; [now apply inject_Z_pos|assumption]).
  assert (Hch : 0 < ch) by (apply Qdiv_pos; [now apply inject_Z_pos|assumption]).
  unfold pixelBoxSize. fold (scaleX img) (scaleY img). fold cw ch. fold k.
  pose proof (Qdiv_mult_cancel (imgWidth img) cw Hcw) as Ea.
  pose proof (Qdiv_mult_cancel (imgHeight img) ch Hch) as Eb.
  assert (Ha : 0 < imgWidth img / cw) by (apply Qdiv_pos; assumption).
  assert (Hb : 0 < imgHeight img / ch) by (apply Qdiv_pos; assumption).
  unfold k. revert Ea Eb Ha Hb.
  generalize (imgWidth img / cw) (imgHeight img / ch); intros a b Ea Eb Ha Hb.
  assert (Hk : 0 < Math_min a b /\ Math_min a b <= a /\ Math_min a b <= b).
  { destruct (Math_min_cases a b) as [[? ->] | [? ->]]; repeat split; lra. }
  destruct Hk as (Hm & Hma & Hmb). revert Hm Hma Hmb.
  generalize (Math_min a b); intros m Hm Hma Hmb.
  destruct (gt cw (imgWidth img)) eqn:G1; [|destruct (gt ch (imgHeight img)) eqn:G2];
    simpl; try apply gt_true in G1; try apply gt_false in G1;
    try apply gt_true in G2; try apply gt_false in G2.
  - split; [|split]; [intros _ | intros [? ?]; exfalso; lra |].
    + repeat split; try reflexivity; try ring; nra.
    + repeat split; nra.
  - split; [|split]; [intros _ | intros [? ?]; exfalso; lra |].
    + repeat split; try reflexivity; try ring; nra.
    + repeat split; nra.
  - split; [|split]; [intros [?|?]; exfalso; lra | intros _ |].
    + split; reflexivity.
    + repeat split; lra.
Qed.


Lemma candidate_compare (natural target : Z) (display : Q) :
  (0 < natural)%Z -> 0 < display ->
  let c := inject_Z target / (inject_Z natural / display) in
  (display < c <-> (natural < target)%Z) /\
  (c < display <-> (target < natural)%Z).
Proof.
  intros Hn Hd c.
  assert (Hs : 0 < inject_Z natural / display)
    by (apply Qdiv_pos; [apply inject_Z_pos; lia|assumption]).
  pose proof (Qdiv_mult_cancel (inject_Z target) _ Hs) as E1. fold c in E1.
  pose proof (Qdiv_mult_cancel (inject_Z natural) display Hd) as E2.
  rewrite !Zlt_Qlt.
  revert Hs E1 E2. generalize (inject_Z natural / display). intros s Hs E1 E2.
  revert E1. generalize c. clear c. intros c E1.
  split; split; intros H; nra.
Qed.

Lemma pixelBoxSize_rational (img : ImageElement) (pw ph : Z) :
  pixelBoxSize img pw ph = pixelBoxSizeIn rational img pw ph /\
  exceedsDisplayIn rational img pw ph =
    gt (inject_Z pw / scaleX img) (imgWidth img)
    || gt (inject_Z ph / scaleY img) (imgHeight img).
Proof.
  split; [|reflexivity].
  unfold pixelBoxSize, pixelBoxSizeIn, least; simpl.
  destruct (gt _ _ || gt _ _); [|reflexivity].
  unfold Math_min, gt. destruct (Qlt_le_dec _ _); reflexivity.
Qed.

(** With a target equal to the natural size the candidate is the display
    box itself, which exact arithmetic keeps. *)
Lemma exact_fit_in_exact_arithmetic :
  exceedsDisplayIn rational photoImage 5472 3648 = false /\
  fst (pixelBoxSize photoImage 5472 3648) == 1200 /\
  snd (pixelBoxSize photoImage 5472 3648) == 800.
Proof. vm_compute; repeat split. Qed.



(** ** Geometry of the pointer and wheel operations *)

Ltac halves := unfold Qdiv in *; change (/ 2) with (1 # 2) in *.

Lemma clamp_cases (lo a hi : Q) :
  let c := Math_max lo (Math_min a hi) in
  (lo <= hi /\ lo <= c /\ c <= hi) \/ (hi < lo /\ c = lo).
Proof.
  simpl; unfold Math_max, Math_min.
  destruct (Qlt_le_dec hi lo); [right|left];
    destruct (Qlt_le_dec hi a);
    match goal with |- context [Qlt_le_dec ?p ?q] => destruct (Qlt_le_dec p q) end;
    repeat split; try reflexivity; try lra.
Qed.

(** Replace every clamp [Math.max(lo, Math.min(a, hi))] of the goal by
    its two cases. *)
Ltac break_clamp :=
  repeat match goal with
  | |- context [Math_max ?lo (Math_min ?a ?hi)] =>
      let E := fresh "E" in
      destruct (clamp_cases lo a hi) as [(? & ? & ?) | (? & E)];
      [ generalize dependent (Math_max lo (Math_min a hi)); intros
      | rewrite E in *; clear E ]
  end.

Ltac break_gt :=
  repeat match goal with
  | |- context [gt ?a ?b] =>
      let G := fresh "G" in
      destruct (gt a b) eqn:G;
      [apply gt_true in G | apply gt_false in G]; cbv beta iota
  end.

Ltac reduce_resize :=
  cbv beta iota zeta delta
    [resizeBox resizeEdges keepWithinImage wheelBox dragBox
     data_handle includes Ascii.eqb Bool.eqb orb activeRatio
     x y width height
     Contained PositiveSize MinSized BoundsInvariant RatioShaped].

(** Name every quotient by [r] of the goal, keeping its sign and its
    defining equation, and record the sign of every product with [r]. *)
Ltac name_ratio_terms r Hr :=
  repeat match goal with
  | |- context [?a / r] =>
      let P := fresh "P" in let E := fresh "E" in
      assert (P : 0 < a) by (halves; lra);
      pose proof (Qdiv_mult_cancel a r Hr) as E;
      apply (fun p => Qdiv_pos a r p Hr) in P;
      generalize dependent (a / r); intros
  | |- context [?a * r] =>
      lazymatch goal with
      | _ : 0 < a * r |- _ => fail
      | _ =>
          let P := fresh "P" in
          assert (P : 0 < a) by (halves; lra);
          apply (fun p => Qmult_lt_0_compat a r p Hr) in P
      end
  end.





Lemma Qdiv_of_mult (a b r : Q) : 0 < b -> a == b * r -> a / b == r.
Proof. intros Hb E. rewrite E. field. lra. Qed.



(** ** The pointer and wheel events in the render cycle *)

Lemma effect_same (dom : Dom) (a b : State) :
  imageLoaded a = imageLoaded b -> policy a = policy b -> effect dom a b = b.
Proof.
  intros Hl Hp; unfold effect. now rewrite sameDeps_policy.
Qed.








Lemma policy_currentRatio (a b : State) :
  policy a = policy b -> currentRatio a = currentRatio b.
Proof.
  destruct a, b; unfold policy, currentRatio, isCustomRatio, customRatioValue;
    simpl. now intros [= -> -> -> -> -> -> ->].
Qed.




Lemma run_cons (dom : Dom) (props : Props) (st : State) (ev : Event)
    (rest : list Event) :
  fst (run dom props st (ev :: rest)) =
  fst (run dom props (fst (step dom props st ev)) rest).
Proof.
  simpl. destruct (step dom props st ev) as [st1 out1]; simpl.
  now destruct (run dom props st1 rest).
Qed.



(** ** The bounds of the crop box *)


(** Under a locked ratio the resize by a handle keeps neither the
    minimum size of the derived side nor the left and top bounds: the
    two examples the amended C1 leaves out. *)
Lemma locked_resize_below_min_size :
  BoundsInvariant squareImage (initialBox initialState squareImage) /\
  width (cropBox squeezedState) == 50 /\
  height (cropBox squeezedState) == 225 # 8 /\
  ~ MinSized (cropBox squeezedState).
Proof.
  split; [|split; [|split]].
  - vm_compute; repeat split; discriminate.
  - vm_compute; reflexivity.
  - vm_compute; reflexivity.
  - intros [_ Hh]. vm_compute in Hh. apply Hh; reflexivity.
Qed.

Lemma locked_resize_leaves_image :
  x (cropBox recentredState) < 0 /\ ~ Contained squareImage (cropBox recentredState).
Proof.
  split; [vm_compute; reflexivity|].
  intros [Hx _]. vm_compute in Hx. apply Hx; reflexivity.
Qed.





(** * Further properties of the crop editor *)

(** ** Pointer interaction *)

Lemma step_resize (dom : Dom) (props : Props) (st : State) (img : ImageElement)
    (origin : Point) (h : Handle) (cx cy : Q) :
  imageRef dom = Some img -> containerRef dom = Some origin ->
  isDragging st = false -> resizeHandle st = Some h ->
  cropBox (fst (step dom props st (MouseMove cx cy))) =
  resizeBox img (currentRatio st) h (cx - px origin) (cy - py origin)
    (cropBox st).
Proof.
  intros I C D R. unfold step; simpl. unfold handleMouseMove.
  rewrite C, I, D, R. now rewrite effect_same by reflexivity.
Qed.

Lemma clamp_inside (lo a hi : Q) :
  lo <= a -> a <= hi -> Math_max lo (Math_min a hi) == a.
Proof.
  intros; unfold Math_max, Math_min.
  destruct (Qlt_le_dec hi a);
    match goal with |- context [Qlt_le_dec ?p ?q] => destruct (Qlt_le_dec p q) end;
    lra.
Qed.

Lemma clamp_below (lo a hi : Q) :
  a <= lo -> lo <= hi -> Math_max lo (Math_min a hi) == lo.
Proof.
  intros; unfold Math_max, Math_min.
  destruct (Qlt_le_dec hi a);
    match goal with |- context [Qlt_le_dec ?p ?q] => destruct (Qlt_le_dec p q) end;
    lra.
Qed.

Lemma clamp_above (lo a hi : Q) :
  hi <= a -> lo <= hi -> Math_max lo (Math_min a hi) == hi.
Proof.
  intros; unfold Math_max, Math_min.
  destruct (Qlt_le_dec hi a);
    match goal with |- context [Qlt_le_dec ?p ?q] => destruct (Qlt_le_dec p q) end;
    lra.
Qed.

Lemma step_grab (dom : Dom) (props : Props) (st : State) (origin : Point)
    (cx cy : Q) :
  containerRef dom = Some origin ->
  fst (step dom props st (MouseDown None cx cy)) =
  setDragStart
    (mkPoint (cx - px origin - x (cropBox st)) (cy - py origin - y (cropBox st)))
    (setIsDragging true st).
Proof.
  intros C. unfold step; simpl. unfold handleMouseDown. rewrite C.
  now rewrite effect_same by reflexivity.
Qed.

(** X1.  Grabbing the body of the box at one point and moving the pointer
    to another moves the box by the same displacement, its size unchanged,
    whenever the displaced box still lies inside the image. *)
Theorem drag_follows_pointer
    (dom : Dom) (props : Props) (st : State) (img : ImageElement)
    (origin : Point) (cx cy cx' cy' : Q) :
  imageRef dom = Some img -> containerRef dom = Some origin ->
  0 <= x (cropBox st) + (cx' - cx) ->
  x (cropBox st) + (cx' - cx) + width (cropBox st) <= imgWidth img ->
  0 <= y (cropBox st) + (cy' - cy) ->
  y (cropBox st) + (cy' - cy) + height (cropBox st) <= imgHeight img ->
  let st1 := fst (step dom props st (MouseDown None cx cy)) in
  let st2 := fst (step dom props st1 (MouseMove cx' cy')) in
  x (cropBox st2) == x (cropBox st) + (cx' - cx) /\
  y (cropBox st2) == y (cropBox st) + (cy' - cy) /\
  width (cropBox st2) = width (cropBox st) /\
  height (cropBox st2) = height (cropBox st).
Proof.
  intros I C Hx0 Hx1 Hy0 Hy1.
  rewrite (step_grab dom props st origin cx cy C).
  unfold step; simpl. unfold handleMouseMove. rewrite C, I. simpl.
  rewrite effect_same by reflexivity. simpl.
  destruct (cropBox st) as [bx by_ bw bh]; simpl in *.
  unfold dragBox; simpl.
  rewrite !clamp_inside by lra. repeat split; lra.
Qed.

Lemma drag_follows_pointer_witness :
  x (cropBox (fst (run squareDom (mkProps true) initialState
       [ImageLoad; MouseDown None 500 500; MouseMove 450 520]))) == 50.
Proof.
  pose proof (drag_follows_pointer squareDom (mkProps true)
                (fst (run squareDom (mkProps true) initialState [ImageLoad]))
                squareImage (mkPoint 0 0) 500 500 450 520 eq_refl eq_refl) as H.
  destruct H as (H & _); try (vm_compute; discriminate).
  rewrite H. vm_compute. reflexivity.
Defined.

(** X2.  Releasing the button (or leaving the container) ends both
    interactions without touching the box, and while neither interaction
    is active a mouse move changes nothing and calls nothing. *)
Theorem idle_mouse_move_changes_nothing
    (dom : Dom) (props : Props) (st : State) (cx cy : Q) :
  isDragging st = false -> resizeHandle st = None ->
  step dom props st (MouseMove cx cy) = (st, []) /\
  forall s : State,
    let released := fst (step dom props s MouseUp) in
    isDragging released = false /\ resizeHandle released = None /\
    cropBox released = cropBox s /\
    step dom props released (MouseMove cx cy) = (released, []).
Proof.
  assert (Idle : forall s, isDragging s = false -> resizeHandle s = None ->
                   step dom props s (MouseMove cx cy) = (s, [])).
  { intros s D R. unfold step; simpl. unfold handleMouseMove.
    rewrite D, R.
    destruct (containerRef dom); [destruct (imageRef dom)|];
      now rewrite effect_same by reflexivity. }
  intros D R. split; [now apply Idle|].
  intros s. cbv zeta. unfold step at 1 2 3 4; simpl.
  rewrite effect_same by reflexivity.
  repeat split. apply Idle; reflexivity.
Qed.

Lemma idle_mouse_move_changes_nothing_witness :
  step squareDom (mkProps true) initialState (MouseMove 10 10)
  = (initialState, []).
Proof.
  exact (proj1 (idle_mouse_move_changes_nothing squareDom (mkProps true)
                  initialState 10 10 eq_refl eq_refl)).
Defined.

(** ** Resizing with the lock off *)

Lemma clamp_full (lo a hi : Q) :
  let c := Math_max lo (Math_min a hi) in
  (hi < lo /\ c = lo) \/
  (lo <= hi /\ a <= lo /\ c == lo) \/
  (lo <= a /\ a <= hi /\ c == a) \/
  (lo <= hi /\ hi <= a /\ c == hi).
Proof.
  simpl. destruct (Qlt_le_dec hi lo) as [H|H].
  - left; split; [assumption|].
    unfold Math_max, Math_min.
    destruct (Qlt_le_dec hi a);
      match goal with |- context [Qlt_le_dec ?p ?q] => destruct (Qlt_le_dec p q) end;
      try reflexivity; exfalso; lra.
  - right. destruct (Qlt_le_dec a lo) as [Ha|Ha].
    + left. repeat split; try lra. apply clamp_below; lra.
    + right. destruct (Qlt_le_dec hi a) as [Hb|Hb].
      * right. repeat split; try lra. apply clamp_above; lra.
      * left. repeat split; try lra. apply clamp_inside; lra.
Qed.

(** As [break_clamp], keeping the value of the clamp in each case. *)
Ltac break_clamp_full :=
  repeat match goal with
  | |- context [Math_max ?lo (Math_min ?a ?hi)] =>
      let E := fresh "E" in
      destruct (clamp_full lo a hi)
        as [(? & E) | [(? & ? & E) | [(? & ? & E) | (? & ? & E)]]];
      [ rewrite E in *; clear E
      | generalize dependent (Math_max lo (Math_min a hi)); intros
      | generalize dependent (Math_max lo (Math_min a hi)); intros
      | generalize dependent (Math_max lo (Math_min a hi)); intros ]
  end.

(** X3.  With the lock off, a resize moves only the edges the grabbed
    handle names: the left edge stays unless the handle has a "w", the
    right edge unless it has an "e", the top edge unless it has an "n", the
    bottom edge unless it has an "s". *)
Theorem free_resize_moves_only_grabbed_edges
    (dom : Dom) (props : Props) (st : State) (img : ImageElement)
    (origin : Point) (h : Handle) (cx cy : Q) :
  imageRef dom = Some img -> containerRef dom = Some origin ->
  isDragging st = false -> resizeHandle st = Some h ->
  lockAspectRatio st = false ->
  Contained img (cropBox st) ->
  let b := cropBox st in
  let nb := cropBox (fst (step dom props st (MouseMove cx cy))) in
  (includes (data_handle h) "w" = false -> x nb == x b) /\
  (includes (data_handle h) "e" = false ->
   x nb + width nb == x b + width b) /\
  (includes (data_handle h) "n" = false -> y nb == y b) /\
  (includes (data_handle h) "s" = false ->
   y nb + height nb == y b + height b).
Proof.
  intros I C D R L HC. cbv zeta.
  rewrite (step_resize dom props st img origin h cx cy I C D R).
  rewrite (currentRatio_unlocked st L).
  generalize (cx - px origin) (cy - py origin); intros mx my.
  destruct (cropBox st) as [bx by_ bw bh].
  destruct HC as (Hx & Hy & Hr & Hb); simpl in Hx, Hy, Hr, Hb.
  destruct h; (split; [|split; [|split]]); intros Hinc;
    try (vm_compute in Hinc; discriminate Hinc); clear Hinc;
    reduce_resize; break_clamp; break_gt; lra.
Qed.

Lemma free_resize_moves_only_grabbed_edges_witness :
  let st := fst (run smallDom (mkProps true) unlockedSmallState
                   [MouseDown (Some Hse) 57 57]) in
  x (cropBox (fst (step smallDom (mkProps true) st (MouseMove 60 61))))
  == x (cropBox st).
Proof.
  cbv zeta.
  refine (proj1 (free_resize_moves_only_grabbed_edges smallDom (mkProps true)
            (fst (run smallDom (mkProps true) unlockedSmallState
                    [MouseDown (Some Hse) 57 57]))
            smallImage (mkPoint 0 0) Hse 60 61 _ _ _ _ _ _) _);
    try reflexivity.
  vm_compute; repeat split; discriminate.
Defined.

(** X4.  With the lock off, on a box that satisfies the six inequalities,
    the grabbed edge lands on the pointer while the pointer is between the
    minimum size (50 from the opposite edge) and the border of the image;
    past either limit the edge stops there. *)
Theorem free_resize_edge_follows_pointer
    (dom : Dom) (props : Props) (st : State) (img : ImageElement)
    (origin : Point) (h : Handle) (cx cy : Q) :
  imageRef dom = Some img -> containerRef dom = Some origin ->
  isDragging st = false -> resizeHandle st = Some h ->
  lockAspectRatio st = false ->
  BoundsInvariant img (cropBox st) ->
  let b := cropBox st in
  let nb := cropBox (fst (step dom props st (MouseMove cx cy))) in
  let mx := cx - px origin in
  let my := cy - py origin in
  (includes (data_handle h) "e" = true ->
   (x b + 50 <= mx -> mx <= imgWidth img -> x nb + width nb == mx) /\
   (mx <= x b + 50 -> width nb == 50) /\
   (imgWidth img <= mx -> x nb + width nb == imgWidth img)) /\
  (includes (data_handle h) "w" = true ->
   (0 <= mx -> mx <= x b + width b - 50 -> x nb == mx) /\
   (mx <= 0 -> x nb == 0) /\
   (x b + width b - 50 <= mx -> width nb == 50)) /\
  (includes (data_handle h) "s" = true ->
   (y b + 50 <= my -> my <= imgHeight img -> y nb + height nb == my) /\
   (my <= y b + 50 -> height nb == 50) /\
   (imgHeight img <= my -> y nb + height nb == imgHeight img)) /\
  (includes (data_handle h) "n" = true ->
   (0 <= my -> my <= y b + height b - 50 -> y nb == my) /\
   (my <= 0 -> y nb == 0) /\
   (y b + height b - 50 <= my -> height nb == 50)).
Proof.
  intros I C D R L HB. cbv zeta.
  rewrite (step_resize dom props st img origin h cx cy I C D R).
  rewrite (currentRatio_unlocked st L).
  generalize (cx - px origin) (cy - py origin); intros mx my.
  destruct (cropBox st) as [bx by_ bw bh].
  destruct HB as ((Hx & Hy & Hr & Hb) & (Hw & Hh));
    simpl in Hx, Hy, Hr, Hb, Hw, Hh.
  destruct h; (split; [|split; [|split]]); intros Hinc;
    try (vm_compute in Hinc; discriminate Hinc); clear Hinc;
    reduce_resize; break_clamp_full; break_gt;
    repeat split; intros; lra.
Qed.

Lemma free_resize_edge_follows_pointer_witness :
  let st := fst (run smallDom (mkProps true) unlockedSmallState
                   [MouseDown (Some Hse) 57 57]) in
  let nb := cropBox (fst (step smallDom (mkProps true) st (MouseMove 60 61))) in
  x nb + width nb == 60.
Proof.
  cbv zeta.
  refine (proj1 (proj1 (free_resize_edge_follows_pointer smallDom (mkProps true)
            (fst (run smallDom (mkProps true) unlockedSmallState
                    [MouseDown (Some Hse) 57 57]))
            smallImage (mkPoint 0 0) Hse 60 61 _ _ _ _ _ _) _) _ _);
    try reflexivity; try (vm_compute; discriminate).
  vm_compute; repeat split; discriminate.
Defined.

(** ** The shift-wheel zoom *)

Lemma step_zoom (dom : Dom) (props : Props) (st : State) (img : ImageElement)
    (d : Q) :
  imageRef dom = Some img ->
  cropBox (fst (step dom props st (Wheel true d))) =
  wheelBox img (currentRatio st) d (cropBox st).
Proof.
  intros I. unfold step; simpl. rewrite I.
  now rewrite effect_same by reflexivity.
Qed.

(** X5.  Under a positive current ratio [r], the shift-wheel zoom of a box
    of positive width ends with width = height * r and a positive height,
    whichever way it scales and whether or not it was cut to the image;
    the box it starts from need not have the ratio. *)
Theorem wheel_zoom_keeps_ratio
    (dom : Dom) (props : Props) (st : State) (img : ImageElement) (r d : Q) :
  imageRef dom = Some img ->
  0 < imgWidth img -> 0 < imgHeight img ->
  currentRatio st = Some r -> 0 < r ->
  0 < width (cropBox st) ->
  let nb := cropBox (fst (step dom props st (Wheel true d))) in
  width nb == height nb * r /\ 0 < height nb /\ width nb / height nb == r.
Proof.
  intros I HW HH Hcr Hr Hw. cbv zeta.
  rewrite (step_zoom dom props st img d I), Hcr.
  destruct (cropBox st) as [bx by_ bw bh]; simpl in Hw.
  assert (Core : width (wheelBox img (Some r) d (mkCropBox bx by_ bw bh))
                 == height (wheelBox img (Some r) d (mkCropBox bx by_ bw bh)) * r
                 /\ 0 < height (wheelBox img (Some r) d (mkCropBox bx by_ bw bh))).
  { reduce_resize; rewrite (truthy_pos r Hr); cbv beta iota.
    destruct (gt d 0); cbv beta iota.
    all: name_ratio_terms r Hr.
    all: break_gt.
    all: name_ratio_terms r Hr.
    all: split; nra. }
  destruct Core as [Hs Hh].
  repeat split; try assumption. now apply Qdiv_of_mult.
Qed.

Lemma wheel_zoom_keeps_ratio_witness :
  let nb := cropBox (fst (run squareDom (mkProps true) initialState
                            [ImageLoad; Wheel true (-100)])) in
  width nb == height nb * (16 / 9).
Proof.
  cbv zeta.
  refine (proj1 (wheel_zoom_keeps_ratio squareDom (mkProps true)
            (fst (run squareDom (mkProps true) initialState [ImageLoad]))
            squareImage (16 / 9) (-100) _ _ _ _ _ _)); reflexivity.
Defined.

(** X6.  Scrolling down with shift on a box inside the image shrinks it
    to 95% about its own centre (with a locked ratio, when the box has that
    ratio); scrolling up enlarges it to 105% about its centre whenever the
    enlarged box still lies inside the image. *)
Theorem wheel_zoom_scales_about_centre
    (dom : Dom) (props : Props) (st : State) (img : ImageElement) (d : Q) :
  imageRef dom = Some img ->
  Contained img (cropBox st) -> PositiveSize (cropBox st) ->
  (forall r, currentRatio st = Some r ->
             0 < r /\ width (cropBox st) == height (cropBox st) * r) ->
  let b := cropBox st in
  let nb := cropBox (fst (step dom props st (Wheel true d))) in
  let scaled (f : Q) :=
    width nb == width b * f /\ height nb == height b * f /\
    x nb + width nb * (1 # 2) == x b + width b * (1 # 2) /\
    y nb + height nb * (1 # 2) == y b + height b * (1 # 2) in
  (0 < d -> scaled (95 # 100)) /\
  (d <= 0 ->
   0 <= x b - width b * (1 # 40) ->
   x b + width b + width b * (1 # 40) <= imgWidth img ->
   0 <= y b - height b * (1 # 40) ->
   y b + height b + height b * (1 # 40) <= imgHeight img ->
   scaled (105 # 100)).
Proof.
  intros I HC HP Hcr. cbv zeta.
  rewrite (step_zoom dom props st img d I).
  destruct (cropBox st) as [bx by_ bw bh].
  destruct HC as (Hx & Hy & Hrt & Hb). destruct HP as (Hw & Hh).
  simpl in Hx, Hy, Hrt, Hb, Hw, Hh, Hcr.
  destruct (currentRatio st) as [r|].
  - destruct (Hcr r eq_refl) as [Hr Hs]. clear Hcr.
    split.
    + intros Hd. apply gt_true in Hd.
      reduce_resize; rewrite (truthy_pos r Hr), Hd; cbv beta iota.
      assert (Eq : bw * (95 # 100) / r == bh * (95 # 100))
        by (rewrite Hs; field; lra).
      revert Eq. generalize (bw * (95 # 100) / r). intros q Eq.
      break_gt; try (exfalso; lra).
      do 2 (rewrite clamp_inside; [|halves; lra|halves; lra]).
      repeat split; halves; lra.
    + intros Hd F1 F2 F3 F4. simpl in F1, F2, F3, F4. apply gt_false in Hd.
      reduce_resize; rewrite (truthy_pos r Hr), Hd; cbv beta iota.
      assert (Eq : bw * (105 # 100) / r == bh * (105 # 100))
        by (rewrite Hs; field; lra).
      revert Eq. generalize (bw * (105 # 100) / r). intros q Eq.
      break_gt; try (exfalso; lra).
      do 2 (rewrite clamp_inside; [|halves; lra|halves; lra]).
      repeat split; halves; lra.
  - clear Hcr. split.
    + intros Hd. apply gt_true in Hd.
      reduce_resize; rewrite Hd; cbv beta iota.
      break_gt; try (exfalso; lra).
      do 2 (rewrite clamp_inside; [|halves; lra|halves; lra]).
      repeat split; halves; lra.
    + intros Hd F1 F2 F3 F4. simpl in F1, F2, F3, F4. apply gt_false in Hd.
      reduce_resize; rewrite Hd; cbv beta iota.
      break_gt; try (exfalso; lra).
      do 2 (rewrite clamp_inside; [|halves; lra|halves; lra]).
      repeat split; halves; lra.
Qed.

Lemma wheel_zoom_scales_about_centre_witness :
  width (cropBox (fst (run squareDom (mkProps true) initialState
                         [ImageLoad; Wheel true 100]))) == 760.
Proof.
  destruct (wheel_zoom_scales_about_centre squareDom (mkProps true)
              (fst (run squareDom (mkProps true) initialState [ImageLoad]))
              squareImage 100) as [H _].
  - reflexivity.
  - vm_compute; repeat split; discriminate.
  - vm_compute; repeat split; reflexivity.
  - intros r [= <-]. split; reflexivity.
  - destruct (H eq_refl) as (Hw & _). rewrite Hw. reflexivity.
Defined.

(** ** Initialisation and commit *)

Lemma step_load (dom : Dom) (props : Props) (st : State) (img : ImageElement) :
  imageLoaded st = false -> imageRef dom = Some img ->
  fst (step dom props st ImageLoad) =
  setCropBox (initialBox st img) (setImageLoaded true st).
Proof.
  intros L I. unfold step; simpl. unfold effect, sameDeps; simpl.
  rewrite L; simpl. unfold initializeCropBox. now rewrite I.
Qed.

(** X7.  When the image finishes loading under a positive current ratio
    outside pixel mode, the box the editor starts with has exactly that
    ratio and fills 80% of the display in at least one dimension. *)
Theorem loaded_box_has_the_ratio
    (dom : Dom) (props : Props) (st : State) (img : ImageElement) (r : Q) :
  imageRef dom = Some img -> imageLoaded st = false ->
  0 < imgWidth img -> 0 < imgHeight img ->
  pixelMode st = false -> currentRatio st = Some r -> 0 < r ->
  let b := cropBox (fst (step dom props st ImageLoad)) in
  width b == height b * r /\ 0 < height b /\ width b / height b == r /\
  (width b == imgWidth img * (8 # 10) \/ height b == imgHeight img * (8 # 10)).
Proof.
  intros I L HW HH Hp Hc Hr. cbv zeta.
  rewrite (step_load dom props st img L I). simpl cropBox.
  pose proof (ratioBoxSize_spec img (Some r) HW HH) as (Hshape & _ & _ & Hbw & Hbh).
  { now intros r' [= <-]. }
  unfold initialBox. rewrite Hp, Hc.
  destruct (ratioBoxSize img (Some r)) as [bw bh].
  simpl in Hshape, Hbw, Hbh. simpl.
  pose proof (Qdiv_mult_cancel (imgWidth img * (8 # 10)) r Hr) as E.
  assert (Hs : bw == bh * r).
  { destruct Hshape as [(_ & E1 & E2) | (_ & E1 & E2)].
    - rewrite E1, E2, E. reflexivity.
    - rewrite E1, E2. reflexivity. }
  repeat split; try assumption.
  - now apply Qdiv_of_mult.
  - destruct Hshape as [(_ & E1 & _) | (_ & E1 & _)]; [now left|now right].
Qed.

Lemma loaded_box_has_the_ratio_witness :
  let b := cropBox (fst (step wideDom (mkProps true) initialState ImageLoad)) in
  width b == height b * (16 / 9).
Proof.
  cbv zeta.
  refine (proj1 (loaded_box_has_the_ratio wideDom (mkProps true) initialState
                   wideImage (16 / 9) _ _ _ _ _ _ _)); reflexivity.
Defined.

Lemma Math_round_integer (q : Q) (z : Z) : q == inject_Z z -> Math_round q = z.
Proof.
  intros E. unfold Math_round. rewrite E.
  pose proof (Qfloor_le (inject_Z z + (1 # 2))) as Hl.
  pose proof (Qlt_floor (inject_Z z + (1 # 2))) as Hu.
  set (f := Qfloor (inject_Z z + (1 # 2))) in *.
  assert (H1 : inject_Z f < inject_Z (z + 1)).
  { rewrite inject_Z_plus. change (inject_Z 1) with 1. lra. }
  assert (H2 : inject_Z z < inject_Z (f + 1)) by lra.
  rewrite <- Zlt_Qlt in H1, H2. lia.
Qed.

(** X8.  In pixel mode, for a target that a canvas can have, the initial
    box, projected to source pixels, has the proportions of the target; and
    when the target is strictly smaller than the natural size of the image
    in both dimensions, a commit right after initialisation samples
    exactly [pixelWidth] x [pixelHeight] source pixels into a canvas of that
    size, a copy without resampling. *)
Theorem pixel_initial_box_samples_the_target
    (dom : Dom) (st : State) (img : ImageElement) :
  context2d dom = true -> imageRef dom = Some img -> Displayed img ->
  pixelMode st = true ->
  (1 <= pixelWidth st <= 2147483647)%Z ->
  (1 <= pixelHeight st <= 2147483647)%Z ->
  let b := initialBox st img in
  width b * scaleX img * inject_Z (pixelHeight st)
    == height b * scaleY img * inject_Z (pixelWidth st) /\
  ((pixelWidth st < naturalWidth img)%Z ->
   (pixelHeight st < naturalHeight img)%Z ->
   exists c,
     getCroppedImage dom (initializeCropBox dom st) = Some c /\
     (sourceWidth (drawn c), sourceHeight (drawn c))
       = (pixelWidth st, pixelHeight st) /\
     (canvasWidth c, canvasHeight c) = (pixelWidth st, pixelHeight st)).
Proof.
  intros Hc I HD Hp [Hpw Bw] [Hph Bh] b.
  destruct (scale_nonneg img HD) as [Hsx Hsy].
  pose proof HD as (HW & HH & Hnw & Hnh).
  pose proof (pixelBoxSize_spec img _ _ HD Hpw Hph) as (Hbig & Hsmall & _ & _).
  pose proof (Qdiv_mult_cancel (inject_Z (pixelWidth st)) (scaleX img) Hsx) as Ew.
  pose proof (Qdiv_mult_cancel (inject_Z (pixelHeight st)) (scaleY img) Hsy) as Eh.
  assert (Eb : b = centred img (pixelBoxSize img (pixelWidth st) (pixelHeight st)))
    by (unfold b, initialBox; now rewrite Hp).
  assert (Fit : inject_Z (pixelWidth st) / scaleX img <= imgWidth img ->
                inject_Z (pixelHeight st) / scaleY img <= imgHeight img ->
                width b * scaleX img == inject_Z (pixelWidth st) /\
                height b * scaleY img == inject_Z (pixelHeight st)).
  { intros F1 F2. destruct (Hsmall (conj F1 F2)) as [E1 E2].
    rewrite Eb.
    destruct (pixelBoxSize img (pixelWidth st) (pixelHeight st)) as [bw bh].
    simpl in *. rewrite E1, E2. split; assumption. }
  split.
  - destruct (Qlt_le_dec (imgWidth img) (inject_Z (pixelWidth st) / scaleX img))
      as [G1|G1];
      [|destruct (Qlt_le_dec (imgHeight img)
                    (inject_Z (pixelHeight st) / scaleY img)) as [G2|G2]].
    + destruct (Hbig (or_introl G1)) as (E1 & E2 & _).
      rewrite Eb.
      destruct (pixelBoxSize img (pixelWidth st) (pixelHeight st)) as [bw bh].
      simpl in *. rewrite E1, E2.
      revert Ew Eh.
      generalize (inject_Z (pixelWidth st) / scaleX img)
                 (inject_Z (pixelHeight st) / scaleY img).
      intros cw ch Ew Eh. rewrite <- Ew, <- Eh. ring.
    + destruct (Hbig (or_intror G2)) as (E1 & E2 & _).
      rewrite Eb.
      destruct (pixelBoxSize img (pixelWidth st) (pixelHeight st)) as [bw bh].
      simpl in *. rewrite E1, E2.
      revert Ew Eh.
      generalize (inject_Z (pixelWidth st) / scaleX img)
                 (inject_Z (pixelHeight st) / scaleY img).
      intros cw ch Ew Eh. rewrite <- Ew, <- Eh. ring.
    + destruct (Fit G1 G2) as [E1 E2]. rewrite E1, E2. ring.
  - intros Sw Sh.
    destruct (candidate_compare (naturalWidth img) (pixelWidth st) (imgWidth img)
                Hnw HW) as [_ Cw].
    destruct (candidate_compare (naturalHeight img) (pixelHeight st) (imgHeight img)
                Hnh HH) as [_ Ch].
    fold (scaleX img) in Cw. fold (scaleY img) in Ch.
    apply Cw in Sw. apply Ch in Sh.
    destruct (Fit (Qlt_le_weak _ _ Sw) (Qlt_le_weak _ _ Sh)) as [E1 E2].
    destruct (getCroppedImage_available dom (initializeCropBox dom st) img Hc I)
      as (c & G & D & S & T).
    exists c. split; [exact G|].
    unfold initializeCropBox in D, S. rewrite I in D, S.
    change (pixelMode (setCropBox (initialBox st img) st)) with (pixelMode st) in D.
    rewrite Hp in D. simpl in D.
    unfold destSize in D. injection D as Dw Dh. rewrite Dw, Dh in T.
    rewrite !canvasDimension_kept in T by lia.
    split; [|exact T].
    unfold sourceRect, toSource in S. simpl in S. fold b in S.
    injection S as _ _ Sw' Sh'. rewrite Sw', Sh'.
    now rewrite (Math_round_integer _ _ E1), (Math_round_integer _ _ E2).
Qed.

Lemma pixel_initial_box_samples_the_target_witness :
  exists c,
    getCroppedImage squareDom (initializeCropBox squareDom target900State)
      = Some c /\
    (sourceWidth (drawn c), sourceHeight (drawn c))
      = (pixelWidth target900State, pixelHeight target900State).
Proof.
  assert (HD : Displayed squareImage) by (repeat split; reflexivity).
  assert (Hp : pixelMode target900State = true) by (vm_compute; reflexivity).
  assert (Hw : (1 <= pixelWidth target900State <= 2147483647)%Z)
    by (vm_compute; split; discriminate).
  assert (Hh : (1 <= pixelHeight target900State <= 2147483647)%Z)
    by (vm_compute; split; discriminate).
  destruct (pixel_initial_box_samples_the_target squareDom target900State
              squareImage eq_refl eq_refl HD Hp Hw Hh) as (_ & H).
  assert (F1 : (pixelWidth target900State < naturalWidth squareImage)%Z)
    by (vm_compute; reflexivity).
  assert (F2 : (pixelHeight target900State < naturalHeight squareImage)%Z)
    by (vm_compute; reflexivity).
  destruct (H F1 F2) as (c & G & S & _).
  exists c; split; [exact G|exact S].
Defined.

(** X9.  For a box inside the displayed image the source rectangle of a
    commit starts inside the natural image and overshoots its right and
    bottom borders by one pixel at most. *)
Theorem source_rect_within_one_pixel
    (dom : Dom) (st : State) (img : ImageElement) :
  context2d dom = true -> imageRef dom = Some img -> Displayed img ->
  Contained img (cropBox st) -> PositiveSize (cropBox st) ->
  exists c,
    getCroppedImage dom st = Some c /\
    (0 <= sourceX (drawn c) /\ 0 <= sourceY (drawn c) /\
     0 <= sourceWidth (drawn c) /\ 0 <= sourceHeight (drawn c) /\
     sourceX (drawn c) + sourceWidth (drawn c) <= naturalWidth img + 1 /\
     sourceY (drawn c) + sourceHeight (drawn c) <= naturalHeight img + 1)%Z.
Proof.
  intros Hc I HD (Hx & Hy & Hr & Hb) (Hw & Hh).
  pose proof HD as (HW & HH & Hnw & Hnh).
  destruct (scale_nonneg img HD) as [Hsx Hsy].
  destruct (getCroppedImage_available dom st img Hc I) as (c & G & _ & S & _).
  exists c. split; [exact G|].
  unfold sourceRect, toSource in S. injection S as -> -> -> ->.
  pose proof (Qdiv_mult_cancel (inject_Z (naturalWidth img)) (imgWidth img) HW) as Ex.
  pose proof (Qdiv_mult_cancel (inject_Z (naturalHeight img)) (imgHeight img) HH) as Ey.
  fold (scaleX img) in Ex. fold (scaleY img) in Ey.
  destruct (cropBox st) as [bx by_ bw bh]; simpl in *.
  pose proof (Math_round_bounds (bx * scaleX img)) as [Lx Ux].
  pose proof (Math_round_bounds (by_ * scaleY img)) as [Ly Uy].
  pose proof (Math_round_bounds (bw * scaleX img)) as [Lw Uw].
  pose proof (Math_round_bounds (bh * scaleY img)) as [Lh Uh].
  revert Ex Ey Hsx Hsy Lx Ux Ly Uy Lw Uw Lh Uh.
  generalize (scaleX img) (scaleY img). intros sx sy.
  generalize (Math_round (bx * sx)) (Math_round (by_ * sy))
             (Math_round (bw * sx)) (Math_round (bh * sy)).
  intros zx zy zw zh Ex Ey Hsx Hsy Lx Ux Ly Uy Lw Uw Lh Uh.
  assert (Px : 0 <= bx * sx) by nra.
  assert (Py : 0 <= by_ * sy) by nra.
  assert (Pw : 0 <= bw * sx) by nra.
  assert (Ph : 0 <= bh * sy) by nra.
  assert (Sx : bx * sx + bw * sx <= inject_Z (naturalWidth img)) by nra.
  assert (Sy : by_ * sy + bh * sy <= inject_Z (naturalHeight img)) by nra.
  assert (A1 : inject_Z (-1) < inject_Z zx) by (change (inject_Z (-1)) with (-1); lra).
  assert (A2 : inject_Z (-1) < inject_Z zy) by (change (inject_Z (-1)) with (-1); lra).
  assert (A3 : inject_Z (-1) < inject_Z zw) by (change (inject_Z (-1)) with (-1); lra).
  assert (A4 : inject_Z (-1) < inject_Z zh) by (change (inject_Z (-1)) with (-1); lra).
  assert (A5 : inject_Z (zx + zw) < inject_Z (naturalWidth img + 2)).
  { rewrite !inject_Z_plus. change (inject_Z 2) with 2. lra. }
  assert (A6 : inject_Z (zy + zh) < inject_Z (naturalHeight img + 2)).
  { rewrite !inject_Z_plus. change (inject_Z 2) with 2. lra. }
  rewrite <- Zlt_Qlt in A1, A2, A3, A4, A5, A6. lia.
Qed.

Lemma source_rect_within_one_pixel_witness :
  exists c,
    getCroppedImage squareDom
      (fst (run squareDom (mkProps true) initialState [ImageLoad])) = Some c /\
    (sourceX (drawn c) + sourceWidth (drawn c) <= 1001)%Z.
Proof.
  destruct (source_rect_within_one_pixel squareDom
              (fst (run squareDom (mkProps true) initialState [ImageLoad]))
              squareImage) as (c & G & H); try reflexivity.
  - repeat split; reflexivity.
  - vm_compute; repeat split; discriminate.
  - vm_compute; repeat split; reflexivity.
  - exists c. split; [exact G|]. apply H.
Defined.

(** ** Re-initialisation, swapping, preview and callbacks *)

Lemma sameDeps_lock_differs (a b : State) :
  lockAspectRatio a <> lockAspectRatio b -> sameDeps a b = false.
Proof.
  intros H. unfold sameDeps.
  destruct (Bool.eqb (lockAspectRatio a) (lockAspectRatio b)) eqn:E.
  - apply Bool.eqb_prop in E. contradiction.
  - now rewrite Bool.andb_false_r.
Qed.

(** X10.  A click on the lock button, with the image loaded, flips the
    lock and keeps the selection and the custom numbers.  While the image
    element is mounted it replaces the box by the initial box of the new
    setting, whatever moves and resizes came before, so unlocking and
    locking again ends in the initial box of the original setting.  While
    the preview is shown there is no image element, [initializeCropBox]
    returns at once, and the box stays as it was.  Either way the second
    click restores the policy. *)
Theorem lock_toggle_reinitialises (dom : Dom) (props : Props) (st : State) :
  imageLoaded st = true ->
  let st1 := fst (step dom props st ClickLock) in
  let st2 := fst (step dom props st1 ClickLock) in
  policy st1 = policy (setLockAspectRatio (negb (lockAspectRatio st)) st) /\
  policy st2 = policy st /\
  (forall img : ImageElement,
     imageRef dom = Some img ->
     cropBox st1 =
       initialBox (setLockAspectRatio (negb (lockAspectRatio st)) st) img /\
     cropBox st2 = initialBox st img) /\
  (imageRef dom = None ->
   st1 = setLockAspectRatio (negb (lockAspectRatio st)) st /\
   cropBox st1 = cropBox st /\ cropBox st2 = cropBox st).
Proof.
  intros L.
  assert (One : forall s, imageLoaded s = true ->
            fst (step dom props s ClickLock) =
            initializeCropBox dom (setLockAspectRatio (negb (lockAspectRatio s)) s)).
  { intros s Ls. unfold step; simpl. unfold effect.
    rewrite sameDeps_lock_differs by (simpl; destruct (lockAspectRatio s); discriminate).
    simpl. now rewrite Ls. }
  cbv zeta. rewrite (One st L).
  assert (L1 : imageLoaded
                 (initializeCropBox dom
                    (setLockAspectRatio (negb (lockAspectRatio st)) st)) = true).
  { unfold initializeCropBox. destruct (imageRef dom); simpl; exact L. }
  rewrite (One _ L1).
  unfold initializeCropBox.
  destruct (imageRef dom) as [img|] eqn:I.
  - split; [reflexivity|]. split.
    + destruct st; simpl. now rewrite Bool.negb_involutive.
    + split; [|discriminate].
      intros img' [= <-]. split; [reflexivity|].
      destruct st; simpl. now rewrite Bool.negb_involutive.
  - split; [reflexivity|]. split.
    + destruct st; simpl. now rewrite Bool.negb_involutive.
    + split; [discriminate|]. intros _. repeat split.
Qed.

Lemma lock_toggle_reinitialises_witness :
  cropBox (fst (run squareDom (mkProps true) recentredState [ClickLock; ClickLock]))
  = initialBox recentredState squareImage /\
  cropBox (fst (run previewDom (mkProps true) recentredState [ClickLock; ClickLock]))
  = cropBox recentredState.
Proof.
  pose proof (lock_toggle_reinitialises squareDom (mkProps true) recentredState
                eq_refl) as (_ & _ & H & _).
  pose proof (lock_toggle_reinitialises previewDom (mkProps true) recentredState
                eq_refl) as (_ & _ & _ & H').
  rewrite !run_cons. split.
  - exact (proj2 (H squareImage eq_refl)).
  - exact (proj2 (proj2 (H' eq_refl))).
Defined.



Lemma step_swap (dom : Dom) (props : Props) (st : State) :
  lockAspectRatio st = true -> isCustomRatio st = true ->
  policy (fst (step dom props st ClickSwap)) =
  policy (match customMode st with
          | ratio => swapRatioDimensions st
          | pixels => swapPixelDimensions st
          end).
Proof.
  intros L C. unfold step; simpl. rewrite L, C; simpl.
  apply effect_policy.
Qed.

(** X12.  With Custom selected and the lock on, the swap button exchanges
    the two numbers of the current custom mode and leaves the other pair
    alone, so the current ratio becomes its reciprocal; a second swap
    restores selection, mode and all four numbers. *)
Theorem swap_inverts_ratio_and_is_involutive
    (dom : Dom) (props : Props) (st : State) :
  lockAspectRatio st = true -> isCustomRatio st = true -> wellFormed st ->
  let st1 := fst (step dom props st ClickSwap) in
  let st2 := fst (step dom props st1 ClickSwap) in
  (customWidth st1, customHeight st1, pixelWidth st1, pixelHeight st1) =
    match customMode st with
    | ratio => (customHeight st, customWidth st, pixelWidth st, pixelHeight st)
    | pixels => (customWidth st, customHeight st, pixelHeight st, pixelWidth st)
    end /\
  (forall r r1 : Q,
     currentRatio st = Some r -> currentRatio st1 = Some r1 -> r * r1 == 1) /\
  policy st2 = policy st.
Proof.
  intros L C WF. cbv zeta.
  pose proof (step_swap dom props st L C) as P1.
  set (st1 := fst (step dom props st ClickSwap)) in *.
  assert (F1 : currentRatioIndex st1 = currentRatioIndex st /\
               lockAspectRatio st1 = true /\ customMode st1 = customMode st /\
               (customWidth st1, customHeight st1, pixelWidth st1, pixelHeight st1) =
               match customMode st with
               | ratio => (customHeight st, customWidth st, pixelWidth st, pixelHeight st)
               | pixels => (customWidth st, customHeight st, pixelHeight st, pixelWidth st)
               end).
  { unfold policy in P1. destruct (customMode st) eqn:M; simpl in P1;
      injection P1; intros; repeat split; congruence. }
  destruct F1 as (Fi & Fl & Fm & Fn).
  assert (C1 : isCustomRatio st1 = true) by (unfold isCustomRatio in *; now rewrite Fi).
  pose proof (step_swap dom props st1 Fl C1) as P2.
  split; [exact Fn|]. split.
  - intros r r1. unfold currentRatio. rewrite L, Fl, C, C1, Fm.
    destruct WF as (_ & Hcw & Hch & Hpw & Hph).
    unfold customRatioValue.
    destruct (customMode st); injection Fn as E1 E2 E3 E4;
      rewrite ?E1, ?E2, ?E3, ?E4;
      intros [= <-] [= <-]; field; split;
      match goal with |- ~ inject_Z ?z == 0 =>
        pose proof (inject_Z_pos z ltac:(assumption)); lra end.
  - rewrite P2. unfold policy. rewrite Fm.
    destruct (customMode st); simpl; injection Fn; intros; congruence.
Qed.

Lemma swap_inverts_ratio_and_is_involutive_witness :
  let st := setCurrentRatioIndex 7 initialState in
  customWidth (fst (step squareDom (mkProps true) st ClickSwap)) = 9%Z.
Proof.
  cbv zeta.
  pose proof (swap_inverts_ratio_and_is_involutive squareDom (mkProps true)
                (setCurrentRatioIndex 7 initialState) eq_refl eq_refl) as H.
  destruct H as (H & _).
  - unfold wellFormed; simpl; lia.
  - exact (f_equal (fun p => fst (fst (fst p))) H).
Defined.

Lemma handle_previewConsistent (dom : Dom) (props : Props) (st : State)
    (ev : Event) :
  previewConsistent st -> previewConsistent (fst (handle dom props st ev)).
Proof.
  intros PC. unfold previewConsistent in *.
  destruct ev; simpl; try assumption.
  - unfold handleMouseDown.
    destruct (containerRef dom); [destruct target|]; assumption.
  - unfold handleMouseMove.
    destruct (containerRef dom); [|assumption].
    destruct (imageRef dom); [|assumption].
    destruct (isDragging st); [assumption|].
    destruct (resizeHandle st); assumption.
  - unfold handleWheel.
    destruct shiftKey; [destruct (imageRef dom); assumption|].
    destruct (lockAspectRatio st); assumption.
  - destruct (lockAspectRatio st && (index <? 8)%nat); assumption.
  - destruct (lockAspectRatio st && isCustomRatio st); assumption.
  - destruct (lockAspectRatio st && isCustomRatio st); [|assumption].
    destruct (customMode st); assumption.
  - destruct (lockAspectRatio st && isCustomRatio st); [|assumption].
    destruct (customMode st); assumption.
  - destruct (lockAspectRatio st && isCustomRatio st); [|assumption].
    destruct (customMode st); assumption.
  - unfold togglePreview. revert PC.
    destruct (showPreview st) eqn:S; intros PC; [reflexivity|].
    destruct (getCroppedImage dom st); [reflexivity|].
    now rewrite S.
  - unfold handleCrop. destruct (getCroppedImage dom st); assumption.
Qed.

Lemma step_previewConsistent (dom : Dom) (props : Props) (st : State)
    (ev : Event) :
  previewConsistent st -> previewConsistent (fst (step dom props st ev)).
Proof.
  intros PC. unfold step.
  pose proof (handle_previewConsistent dom props st ev PC) as H.
  destruct (handle dom props st ev) as [st' out]; simpl in *.
  destruct (effect_cases dom st st') as [-> | (img & _ & ->)]; exact H.
Qed.

(** X13.  From a state whose preview flag and stored preview agree (the
    initial state is one), they agree after every sequence of events: the
    flag is set exactly when a preview image is stored.  The preview button
    never touches the box, the selection or the custom numbers and calls no
    prop; turning the preview on stores exactly the canvas a commit would
    deliver at that moment, and stores nothing when no canvas can be
    rendered; turning it off discards the stored image. *)
Theorem preview_is_the_pending_commit
    (dom : Dom) (props : Props) (st : State) :
  previewConsistent st ->
  (forall evs : list Event,
     previewConsistent (fst (run dom props st evs))) /\
  let st' := fst (step dom props st ClickPreview) in
  cropBox st' = cropBox st /\ policy st' = policy st /\
  snd (step dom props st ClickPreview) = [] /\
  previewUrl st' =
    (if showPreview st then None else getCroppedImage dom st) /\
  showPreview st' =
    (if showPreview st then false
     else match getCroppedImage dom st with Some _ => true | None => false end).
Proof.
  intros PC. split.
  - intros evs. revert st PC.
    induction evs as [|ev rest IH]; intros st PC; [exact PC|].
    rewrite run_cons. apply IH. now apply step_previewConsistent.
  - cbv zeta. unfold step; simpl. unfold togglePreview.
    unfold previewConsistent in PC.
    destruct (showPreview st) eqn:S.
    + rewrite effect_same by reflexivity. repeat split.
    + destruct (getCroppedImage dom st) as [c|].
      * rewrite effect_same by reflexivity. repeat split.
      * rewrite effect_same by reflexivity. rewrite S.
        destruct (previewUrl st); [discriminate|]. repeat split.
Qed.

Lemma preview_is_the_pending_commit_witness :
  previewUrl (fst (step squareDom (mkProps true) squeezedState ClickPreview))
  = getCroppedImage squareDom squeezedState.
Proof.
  destruct (preview_is_the_pending_commit squareDom (mkProps true) squeezedState)
    as (_ & _ & _ & _ & H & _).
  - reflexivity.
  - exact H.
Defined.

Lemma updatesThenClose_app (a b : list Output) :
  updatesThenClose a -> updatesThenClose b -> updatesThenClose (a ++ b).
Proof.
  intros Ha Hb.
  assert (G : forall n l, (List.length l <= n)%nat ->
                updatesThenClose l -> updatesThenClose (l ++ b)).
  { induction n as [|n IH]; intros l Hl H;
      destruct l as [|[c|] rest]; simpl in *; try exact Hb; try lia.
    - destruct rest as [|[c'|] rest']; simpl in *; try contradiction.
      apply IH; [lia|assumption].
    - apply IH; [lia|assumption]. }
  now apply (G (List.length a)).
Qed.

Lemma step_outputs (dom : Dom) (props : Props) (st : State) (ev : Event) :
  updatesThenClose (snd (step dom props st ev)) /\
  (closesOrApplies ev = false -> snd (step dom props st ev) = []).
Proof.
  unfold step. destruct ev; simpl; try (split; [exact I|reflexivity]).
  - unfold handleCrop. destruct (getCroppedImage dom st) as [c|]; simpl.
    + destruct (hasOnImageUpdate props); simpl; split; try exact I; discriminate.
    + split; [exact I|reflexivity].
  - split; [exact I|discriminate].
Qed.

(** X14.  In the props calls of any sequence of events, every
    [onImageUpdate] is immediately followed by [onClose]: the editor never
    hands over an image without closing.  Only the Apply and Cancel buttons
    call a prop, and neither changes the state of the editor. *)
Theorem image_update_always_closes
    (dom : Dom) (props : Props) (st : State) (evs : list Event) :
  updatesThenClose (snd (run dom props st evs)) /\
  (forallb (fun ev => negb (closesOrApplies ev)) evs = true ->
   snd (run dom props st evs) = []) /\
  fst (step dom props st ClickApply) = st /\
  fst (step dom props st ClickClose) = st.
Proof.
  split; [|split; [|split]].
  - revert st. induction evs as [|ev rest IH]; intros st; simpl; [exact I|].
    pose proof (step_outputs dom props st ev) as [H _].
    destruct (step dom props st ev) as [st1 out1]; simpl in H.
    specialize (IH st1).
    destruct (run dom props st1 rest) as [st2 out2]; simpl in *.
    now apply updatesThenClose_app.
  - revert st. induction evs as [|ev rest IH]; intros st Hall; simpl; [reflexivity|].
    simpl in Hall. apply andb_prop in Hall as [Hev Hrest].
    pose proof (step_outputs dom props st ev) as [_ H].
    destruct (step dom props st ev) as [st1 out1]; simpl in H.
    specialize (IH st1 Hrest).
    destruct (run dom props st1 rest) as [st2 out2]; simpl in *.
    rewrite H, IH; [reflexivity|].
    now destruct (closesOrApplies ev).
  - unfold step; simpl. unfold handleCrop.
    destruct (getCroppedImage dom st); simpl; unfold effect;
      now rewrite sameDeps_refl.
  - unfold step; simpl. unfold effect. now rewrite sameDeps_refl.
Qed.

Lemma image_update_always_closes_witness :
  snd (run squareDom (mkProps true) initialState
         [ImageLoad; MouseDown None 500 500; MouseMove 450 520; ClickPreview])
  = [].
Proof.
  exact (proj1 (proj2 (image_update_always_closes squareDom (mkProps true)
           initialState
           [ImageLoad; MouseDown None 500 500; MouseMove 450 520; ClickPreview]))
         eq_refl).
Defined.

(** * Properties of the other components *)

(** ** ImageSizeInfo *)

Lemma gcd_fuel_enough (fuel : nat) (a b : Z) :
  (Z.abs_nat b < fuel)%nat -> exists g, SizeInfo.gcd_fuel fuel a b = Some g.
Proof.
  revert a b. induction fuel as [|k IH]; intros a b Hf; [lia|].
  simpl. destruct (Z.eqb_spec b 0) as [E|E]; [now exists a|].
  apply IH. pose proof (Z.rem_bound_abs a b E). lia.
Qed.

Lemma gcd_fuel_nonneg (fuel : nat) (a b : Z) :
  (0 <= a)%Z -> (0 <= b)%Z -> (Z.abs_nat b < fuel)%nat ->
  SizeInfo.gcd_fuel fuel a b = Some (Z.gcd a b).
Proof.
  revert a b. induction fuel as [|k IH]; intros a b Ha Hb Hf; [lia|].
  simpl. destruct (Z.eqb_spec b 0) as [E|E].
  - subst b. rewrite Z.gcd_0_r, Z.abs_eq by assumption. reflexivity.
  - assert (Hpos : (0 < b)%Z) by lia.
    pose proof (Z.rem_bound_pos a b Ha Hpos) as [R0 R1].
    rewrite IH by lia. f_equal.
    rewrite Z.rem_mod_nonneg by assumption.
    rewrite (Z.gcd_comm b), Z.gcd_mod by assumption.
    apply Z.gcd_comm.
Qed.

(** X15.  [calculateRatio] returns for every pair of integers; for a
    positive width and height the two numbers it prints are positive
    integers in lowest terms whose quotient is width / height. *)
Theorem calculateRatio_lowest_terms (w h : Z) :
  (exists ratio, SizeInfo.calculateRatio w h = Some ratio) /\
  ((0 < w)%Z -> (0 < h)%Z ->
   exists p q : Z,
     (0 < p)%Z /\ (0 < q)%Z /\ Z.gcd p q = 1%Z /\ (p * h = q * w)%Z /\
     exists ratio,
       SizeInfo.calculateRatio w h = Some ratio /\
       fst ratio == inject_Z p /\ snd ratio == inject_Z q).
Proof.
  split.
  - unfold SizeInfo.calculateRatio, SizeInfo.gcd.
    destruct (gcd_fuel_enough (S (Z.abs_nat h)) w h) as [g ->]; [lia|].
    eexists; reflexivity.
  - intros Hw Hh.
    unfold SizeInfo.calculateRatio, SizeInfo.gcd.
    rewrite gcd_fuel_nonneg by lia.
    set (g := Z.gcd w h).
    assert (Hg : (0 < g)%Z).
    { pose proof (Z.gcd_nonneg w h).
      assert (g <> 0)%Z by (unfold g; intros E; apply Z.gcd_eq_0_l in E; lia).
      unfold g in *; lia. }
    destruct (Z.gcd_divide_l w h) as [p Hp].
    destruct (Z.gcd_divide_r w h) as [q Hq].
    fold g in Hp, Hq.
    exists p, q.
    assert (Pp : (0 < p)%Z) by nia.
    assert (Pq : (0 < q)%Z) by nia.
    repeat split; try assumption.
    + pose proof (Z.gcd_div_gcd w h g ltac:(lia) eq_refl) as G.
      rewrite Hp, Hq, !Z.div_mul in G by lia. exact G.
    + rewrite Hp, Hq. ring.
    + eexists; split; [reflexivity|]. simpl.
      pose proof (inject_Z_pos g ltac:(lia)) as Ig.
      split.
      * rewrite Hp, inject_Z_mult. field. lra.
      * rewrite Hq, inject_Z_mult. field. lra.
Qed.

Lemma calculateRatio_lowest_terms_witness :
  exists p q : Z,
    Z.gcd p q = 1%Z /\ (p * 1080 = q * 1920)%Z.
Proof.
  destruct (proj2 (calculateRatio_lowest_terms 1920 1080)) as
    (p & q & _ & _ & G & E & _); try reflexivity.
  exists p, q; split; assumption.
Defined.

Lemma cross_within (W H w h s : Z) :
  2 * (inject_Z W * inject_Z h - inject_Z H * inject_Z w) <= inject_Z s ->
  - inject_Z s <= 2 * (inject_Z W * inject_Z h - inject_Z H * inject_Z w) ->
  (2 * Z.abs (W * h - H * w) <= s)%Z.
Proof.
  intros Hu Hl.
  assert (U : (2 * (W * h - H * w) <= s)%Z).
  { rewrite Zle_Qle. unfold Z.sub.
    rewrite inject_Z_mult, inject_Z_plus, inject_Z_opp, !inject_Z_mult.
    change (inject_Z 2) with 2. lra. }
  assert (L : (- s <= 2 * (W * h - H * w))%Z).
  { rewrite Zle_Qle. unfold Z.sub.
    rewrite inject_Z_opp, inject_Z_mult, inject_Z_plus, inject_Z_opp,
      !inject_Z_mult.
    change (inject_Z 2) with 2. lra. }
  lia.
Qed.

Lemma scaled_entry_proportional (info : SizeInfo.ImageInfo) (n : string) (m : Q) :
  (0 < SizeInfo.width info)%Z -> (0 < SizeInfo.height info)%Z ->
  SizeInfo.proportional info (SizeInfo.width info + SizeInfo.height info)
    (n, Math_round (inject_Z (SizeInfo.width info) * m),
        Math_round (inject_Z (SizeInfo.height info) * m)).
Proof.
  intros Hw Hh. unfold SizeInfo.proportional.
  pose proof (inject_Z_pos (SizeInfo.width info) ltac:(lia)) as Iw.
  pose proof (inject_Z_pos (SizeInfo.height info) ltac:(lia)) as Ih.
  pose proof (Math_round_bounds (inject_Z (SizeInfo.width info) * m)) as [Lw Uw].
  pose proof (Math_round_bounds (inject_Z (SizeInfo.height info) * m)) as [Lh Uh].
  revert Lw Uw Lh Uh.
  generalize (Math_round (inject_Z (SizeInfo.width info) * m))
             (Math_round (inject_Z (SizeInfo.height info) * m)).
  intros W H Lw Uw Lh Uh.
  apply cross_within; rewrite ?inject_Z_plus; nra.
Qed.

Lemma preset_entry_proportional (info : SizeInfo.ImageInfo) (n : string) (W : Z) :
  (0 < SizeInfo.width info)%Z -> (0 < SizeInfo.height info)%Z -> (0 < W)%Z ->
  SizeInfo.proportional info (SizeInfo.width info)
    (n, W, Math_round (inject_Z W *
             (inject_Z (SizeInfo.height info) / inject_Z (SizeInfo.width info)))).
Proof.
  intros Hw Hh HW. unfold SizeInfo.proportional.
  pose proof (inject_Z_pos (SizeInfo.width info) ltac:(lia)) as Iw.
  pose proof (inject_Z_pos (SizeInfo.height info) ltac:(lia)) as Ih.
  pose proof (inject_Z_pos W ltac:(lia)) as IW.
  pose proof (Qdiv_mult_cancel (inject_Z (SizeInfo.height info)) _ Iw) as E.
  revert E.
  generalize (inject_Z (SizeInfo.height info) / inject_Z (SizeInfo.width info)).
  intros a E.
  pose proof (Math_round_bounds (inject_Z W * a)) as [L U].
  revert L U. generalize (Math_round (inject_Z W * a)). intros H L U.
  apply cross_within; nra.
Qed.

(** X16.  Without an image both size tables are empty.  With an image of
    positive width and height, the proportional table starts with the
    image's own size and its exact double, and every listed size has the
    proportions of the image up to the rounding of its sides: the cross
    product [|w' * height - h' * width|] is at most (width + height) / 2
    for a proportional size and at most width / 2 for a common size. *)
Theorem listed_sizes_keep_proportions (info : SizeInfo.ImageInfo) :
  (0 < SizeInfo.width info)%Z -> (0 < SizeInfo.height info)%Z ->
  SizeInfo.getProportionalSizes None = [] /\
  SizeInfo.getCommonSizes None = [] /\
  firstn 2 (SizeInfo.getProportionalSizes (Some info)) =
    [ ("x1"%string, SizeInfo.width info, SizeInfo.height info);
      ("x2"%string, (2 * SizeInfo.width info)%Z, (2 * SizeInfo.height info)%Z) ] /\
  Forall (SizeInfo.proportional info (SizeInfo.width info + SizeInfo.height info))
    (SizeInfo.getProportionalSizes (Some info)) /\
  Forall (SizeInfo.proportional info (SizeInfo.width info))
    (SizeInfo.getCommonSizes (Some info)).
Proof.
  intros Hw Hh. split; [reflexivity|]. split; [reflexivity|].
  split; [|split].
  - simpl.
    rewrite (Math_round_integer (inject_Z (SizeInfo.width info) * 1)
               (SizeInfo.width info)) by ring.
    rewrite (Math_round_integer (inject_Z (SizeInfo.height info) * 1)
               (SizeInfo.height info)) by ring.
    rewrite (Math_round_integer (inject_Z (SizeInfo.width info) * 2)
               (2 * SizeInfo.width info))
      by (rewrite inject_Z_mult; change (inject_Z 2) with 2; ring).
    rewrite (Math_round_integer (inject_Z (SizeInfo.height info) * 2)
               (2 * SizeInfo.height info))
      by (rewrite inject_Z_mult; change (inject_Z 2) with 2; ring).
    reflexivity.
  - unfold SizeInfo.getProportionalSizes, SizeInfo.scales; simpl.
    repeat constructor; now apply scaled_entry_proportional.
  - unfold SizeInfo.getCommonSizes.
    repeat constructor;
      match goal with
      | |- SizeInfo.proportional _ _ (?n, ?W, Math_round (?c * _)) =>
          change c with (inject_Z W);
          apply preset_entry_proportional; lia
      end.
Qed.

Lemma listed_sizes_keep_proportions_witness :
  Forall (SizeInfo.proportional (SizeInfo.mkImageInfo 1000 667 "a.png" "image/png")
            1000)
    (SizeInfo.getCommonSizes
       (Some (SizeInfo.mkImageInfo 1000 667 "a.png" "image/png"))).
Proof.
  refine (proj2 (proj2 (proj2 (proj2
    (listed_sizes_keep_proportions
       (SizeInfo.mkImageInfo 1000 667 "a.png" "image/png") _ _)))));
    reflexivity.
Defined.

(** ** Ingestion and the format caption *)

Lemma split_nonempty (sep : ascii) (s : string) : SizeInfo.split sep s <> [].
Proof.
  destruct s as [|c r]; simpl; [discriminate|].
  destruct (Ascii.eqb c sep); [discriminate|].
  destruct (SizeInfo.split sep r); discriminate.
Qed.

Lemma split_before_sep (sep : ascii) (a r : string) :
  includes a sep = false ->
  SizeInfo.split sep (a ++ String sep r) = a :: SizeInfo.split sep r.
Proof.
  induction a as [|c a IH]; simpl; intros H.
  - now rewrite Ascii.eqb_refl.
  - apply Bool.orb_false_iff in H as [Hc Ha].
    rewrite Hc, (IH Ha). reflexivity.
Qed.

Lemma split_without_sep (sep : ascii) (a : string) :
  includes a sep = false -> SizeInfo.split sep a = [a].
Proof.
  induction a as [|c a IH]; simpl; intros H; [reflexivity|].
  apply Bool.orb_false_iff in H as [Hc Ha].
  rewrite Hc, (IH Ha). reflexivity.
Qed.

Lemma split_with_sep (sep : ascii) (s : string) :
  includes s sep = true -> (2 <= List.length (SizeInfo.split sep s))%nat.
Proof.
  induction s as [|c s IH]; simpl; [discriminate|].
  destruct (Ascii.eqb c sep) eqn:E; simpl.
  - intros _. pose proof (split_nonempty sep s).
    destruct (SizeInfo.split sep s); [contradiction|simpl; lia].
  - intros H. specialize (IH H).
    destruct (SizeInfo.split sep s); simpl in *; lia.
Qed.

Lemma prefix_app (p s : string) :
  String.prefix p s = true -> exists rest, s = (p ++ rest)%string.
Proof.
  revert s. induction p as [|c p IH]; intros s.
  - intros _. now exists s.
  - destruct s as [|d s]; simpl; [discriminate|].
    destruct (ascii_dec c d) as [->|]; [|discriminate].
    intros H. destruct (IH s H) as [rest ->]. now exists rest.
Qed.

(** X17.  [getImageFormat] throws exactly on a type without a slash.
    Every file the ingestion filter lets through has a type that starts
    with "image/", so for it the caption is defined: it is the part of the
    type after "image/", up to the next slash, in upper case. *)
Theorem accepted_files_have_a_format :
  (forall type : string,
     SizeInfo.getImageFormat type = None <-> includes type "/" = false) /\
  (forall file : Ingest.File,
     Ingest.handleFile file <> [] ->
     exists rest,
       Ingest.type file = ("image/" ++ rest)%string /\
       SizeInfo.getImageFormat (Ingest.type file) =
         Some (SizeInfo.toUpperCase (hd EmptyString (SizeInfo.split "/" rest)))).
Proof.
  split.
  - intros type. unfold SizeInfo.getImageFormat. split.
    + intros H. destruct (includes type "/") eqn:E; [|reflexivity].
      pose proof (split_with_sep "/" type E) as L.
      destruct (SizeInfo.split "/" type) as [|a [|b l]]; simpl in *;
        try lia; discriminate.
    + intros E. now rewrite (split_without_sep "/" type E).
  - intros file H. unfold Ingest.handleFile, Ingest.startsWith in H.
    destruct (String.prefix "image/" (Ingest.type file)) eqn:P; [|contradiction].
    destruct (prefix_app _ _ P) as [rest E].
    exists rest. split; [exact E|]. rewrite E.
    unfold SizeInfo.getImageFormat.
    change ("image/" ++ rest)%string with ("image" ++ String "/" rest)%string.
    rewrite split_before_sep by reflexivity. simpl.
    pose proof (split_nonempty "/" rest).
    destruct (SizeInfo.split "/" rest); [contradiction|reflexivity].
Qed.

Lemma accepted_files_have_a_format_witness :
  exists rest,
    Ingest.type (Ingest.mkFile "image/svg+xml" "logo.svg")
      = ("image/" ++ rest)%string /\
    SizeInfo.getImageFormat "image/svg+xml"
      = Some (SizeInfo.toUpperCase (hd EmptyString (SizeInfo.split "/" rest))).
Proof.
  apply (proj2 accepted_files_have_a_format
           (Ingest.mkFile "image/svg+xml" "logo.svg")).
  vm_compute; discriminate.
Defined.

(** X18.  A paste loads at most one file.  The file it loads has an image
    type and comes from the first clipboard item that has an image type
    and yields a file; the items before it are skipped, those after it are
    not looked at.  A clipboard event without items loads nothing. *)
Theorem paste_loads_the_first_image (items : option (list Ingest.Item)) :
  (List.length (Ingest.handlePaste items) <= 1)%nat /\
  (items = None -> Ingest.handlePaste items = []) /\
  (forall file : Ingest.File,
     In file (Ingest.handlePaste items) ->
     Ingest.startsWith (Ingest.type file) "image/" = true /\
     exists before item after,
       items = Some (before ++ item :: after) /\
       Ingest.startsWith (Ingest.itemType item) "image/" = true /\
       Ingest.getAsFile item = Some file /\
       Forall (fun it =>
                 Ingest.startsWith (Ingest.itemType it) "image/" = false \/
                 Ingest.getAsFile it = None) before).
Proof.
  destruct items as [l|]; simpl.
  2:{ split; [lia|]. split; [reflexivity|]. intros file []. }
  split; [|split; [discriminate|]].
  - induction l as [|it l IH]; simpl; [lia|].
    destruct (Ingest.startsWith (Ingest.itemType it) "image/"); [|exact IH].
    destruct (Ingest.getAsFile it) as [f|]; [|exact IH].
    unfold Ingest.handleFile.
    destruct (Ingest.startsWith (Ingest.type f) "image/"); simpl; lia.
  - induction l as [|it l IH]; simpl; intros file Hin; [contradiction|].
    destruct (Ingest.startsWith (Ingest.itemType it) "image/") eqn:T.
    + destruct (Ingest.getAsFile it) as [f|] eqn:G.
      * unfold Ingest.handleFile in Hin.
        destruct (Ingest.startsWith (Ingest.type f) "image/") eqn:F;
          [|contradiction].
        destruct Hin as [<-|[]]. split; [exact F|].
        exists [], it, l. repeat split; auto.
      * destruct (IH file Hin) as (F & before & item & after & E & T' & G' & Hb).
        split; [exact F|].
        injection E as ->.
        exists (it :: before), item, after. repeat split; auto.
    + destruct (IH file Hin) as (F & before & item & after & E & T' & G' & Hb).
      split; [exact F|].
      injection E as ->.
      exists (it :: before), item, after. repeat split; auto.
Qed.

Lemma paste_loads_the_first_image_witness :
  Ingest.startsWith
    (Ingest.type (Ingest.mkFile "image/png" "shot.png")) "image/" = true.
Proof.
  apply (proj2 (proj2 (paste_loads_the_first_image
           (Some [Ingest.mkItem "text/plain" None;
                  Ingest.mkItem "image/png"
                    (Some (Ingest.mkFile "image/png" "shot.png"))])))
           (Ingest.mkFile "image/png" "shot.png")).
  left; reflexivity.
Defined.

(** ** ImageMagnifier *)

Lemma magnifier_wheel_cases (d : Q) (st : Magnifier.State) :
  15 # 10 <= Magnifier.zoom st -> Magnifier.zoom st <= 6 ->
  let z := Magnifier.zoom st in
  let z' := Magnifier.zoom (Magnifier.handleWheel d st) in
  (0 < d ->
   (2 <= z /\ z' == z - (1 # 2)) \/ (z < 2 /\ z' == 15 # 10)) /\
  (d <= 0 ->
   (z <= 55 # 10 /\ z' == z + (1 # 2)) \/ (55 # 10 < z /\ z' == 6)).
Proof.
  intros Hl Hu. cbv zeta.
  unfold Magnifier.handleWheel; simpl.
  unfold Magnifier.ZOOM_STEP, Magnifier.MIN_ZOOM, Magnifier.MAX_ZOOM.
  split; intros Hd.
  - apply gt_true in Hd. rewrite Hd.
    destruct (Math_max_cases (Magnifier.zoom st + - (5 # 10)) (15 # 10))
      as [[H E] | [H E]]; rewrite E;
      match goal with |- context [Math_min ?a ?b] =>
        destruct (Math_min_cases a b) as [[H' E'] | [H' E']]; rewrite E'
      end; try (exfalso; lra).
    + right; split; lra.
    + left; split; lra.
  - apply gt_false in Hd. rewrite Hd.
    destruct (Math_max_cases (Magnifier.zoom st + (5 # 10)) (15 # 10))
      as [[H E] | [H E]]; rewrite E;
      match goal with |- context [Math_min ?a ?b] =>
        destruct (Math_min_cases a b) as [[H' E'] | [H' E']]; rewrite E'
      end; try (exfalso; lra).
    + right; split; lra.
    + left; split; lra.
Qed.

Lemma magnifier_step_invariant (st : Magnifier.State) (ev : Magnifier.Event) :
  15 # 10 <= Magnifier.zoom st <= 6 ->
  (exists k : Z, Magnifier.zoom st == inject_Z k * (1 # 2)) ->
  Magnifier.lensOnImage st ->
  let st' := Magnifier.step st ev in
  15 # 10 <= Magnifier.zoom st' <= 6 /\
  (exists k : Z, Magnifier.zoom st' == inject_Z k * (1 # 2)) /\
  Magnifier.lensOnImage st' /\
  Magnifier.imagePos st' = Magnifier.imagePos st.
Proof.
  intros [Hl Hu] [k Hk] HL. cbv zeta.
  destruct ev as [d | image cx cy | ];
    [change (Magnifier.step st (Magnifier.Wheel d))
       with (Magnifier.handleWheel d st)
    | simpl | simpl].
  - pose proof (magnifier_wheel_cases d st Hl Hu) as [Hdown Hup].
    cbv zeta in Hdown, Hup.
    assert (Lens : Magnifier.lensOnImage (Magnifier.handleWheel d st)) by exact HL.
    destruct (Qlt_le_dec 0 d) as [Hd|Hd].
    + destruct (Hdown Hd) as [[H E] | [H E]].
      * split; [split; lra|]. split; [|split; [exact Lens|reflexivity]].
        exists (k + -1)%Z. rewrite E, Hk, inject_Z_plus.
        change (inject_Z (-1)) with (-1). ring.
      * split; [split; lra|]. split; [|split; [exact Lens|reflexivity]].
        exists 3%Z. rewrite E. reflexivity.
    + destruct (Hup Hd) as [[H E] | [H E]].
      * split; [split; lra|]. split; [|split; [exact Lens|reflexivity]].
        exists (k + 1)%Z. rewrite E, Hk, inject_Z_plus.
        change (inject_Z 1) with 1. ring.
      * split; [split; lra|]. split; [|split; [exact Lens|reflexivity]].
        exists 12%Z. rewrite E. reflexivity.
  - assert (Keep : forall s, Magnifier.zoom s = Magnifier.zoom st ->
                     Magnifier.imagePos s = Magnifier.imagePos st ->
                     Magnifier.lensOnImage s ->
                     15 # 10 <= Magnifier.zoom s <= 6 /\
                     (exists k : Z, Magnifier.zoom s == inject_Z k * (1 # 2)) /\
                     Magnifier.lensOnImage s /\
                     Magnifier.imagePos s = Magnifier.imagePos st).
    { intros s Ez Ei Ls. rewrite Ez. split; [split; assumption|].
      split; [now exists k|]. split; assumption. }
    unfold Magnifier.updateMagnifier.
    destruct image; simpl; [|now apply Keep].
    destruct (gt 0 (cx - Magnifier.x (Magnifier.imagePos st))) eqn:G1;
      [|destruct (gt (cx - Magnifier.x (Magnifier.imagePos st))
                    (Magnifier.width (Magnifier.imagePos st))) eqn:G2;
        [|destruct (gt 0 (cy - Magnifier.y (Magnifier.imagePos st))) eqn:G3;
          [|destruct (gt (cy - Magnifier.y (Magnifier.imagePos st))
                        (Magnifier.height (Magnifier.imagePos st))) eqn:G4]]];
      simpl;
      match goal with
      | |- _ /\ _ /\ Magnifier.lensOnImage ?s /\ _ => apply (Keep s)
      end; try reflexivity;
      unfold Magnifier.lensOnImage; simpl; try discriminate.
    intros _. apply gt_false in G1, G2, G3, G4. repeat split; assumption.
  - split; [split; assumption|]. split; [now exists k|].
    split; [|reflexivity].
    unfold Magnifier.lensOnImage; simpl; discriminate.
Qed.

(** X19.  In the magnifier, starting from the initial zoom 2 or from any
    zoom between 1.5 and 6 that is a multiple of 0.5, and with the lens on
    the image or hidden, every sequence of wheel, mouse-move and mouse-leave
    events keeps the zoom between 1.5 and 6 and on a multiple of 0.5, and
    shows the lens only at a point of the image rectangle.  One wheel
    notch changes the zoom by exactly 0.5, except that it stays at 1.5
    when scrolled down there and at 6 when scrolled up there. *)
Theorem magnifier_zoom_and_lens_stay_valid
    (st : Magnifier.State) (evs : list Magnifier.Event) :
  15 # 10 <= Magnifier.zoom st <= 6 ->
  (exists k : Z, Magnifier.zoom st == inject_Z k * (1 # 2)) ->
  Magnifier.lensOnImage st ->
  let st' := fold_left Magnifier.step evs st in
  (15 # 10 <= Magnifier.zoom st' <= 6 /\
   (exists k : Z, Magnifier.zoom st' == inject_Z k * (1 # 2)) /\
   Magnifier.lensOnImage st' /\
   Magnifier.imagePos st' = Magnifier.imagePos st) /\
  (forall d : Q,
     let z := Magnifier.zoom st in
     let z' := Magnifier.zoom (Magnifier.handleWheel d st) in
     (0 < d ->
      (2 <= z /\ z' == z - (1 # 2)) \/ (z < 2 /\ z' == 15 # 10)) /\
     (d <= 0 ->
      (z <= 55 # 10 /\ z' == z + (1 # 2)) \/ (55 # 10 < z /\ z' == 6))).
Proof.
  intros Hz Hk HL. split.
  - cbv zeta. revert st Hz Hk HL.
    induction evs as [|ev rest IH]; intros st Hz Hk HL; simpl.
    + split; [exact Hz|]. split; [exact Hk|]. split; [exact HL|reflexivity].
    + destruct (magnifier_step_invariant st ev Hz Hk HL) as (Hz1 & Hk1 & HL1 & E1).
      destruct (IH _ Hz1 Hk1 HL1) as (Hz2 & Hk2 & HL2 & E2).
      split; [exact Hz2|]. split; [exact Hk2|]. split; [exact HL2|congruence].
  - intros d. destruct Hz as [Hl Hu]. now apply magnifier_wheel_cases.
Qed.

Lemma magnifier_zoom_and_lens_stay_valid_witness :
  15 # 10 <= Magnifier.zoom
    (fold_left Magnifier.step
       [Magnifier.Wheel 100; Magnifier.Wheel 100; Magnifier.Wheel 100;
        Magnifier.MouseMove true 5 5]
       Magnifier.initialState) <= 6.
Proof.
  refine (proj1 (proj1 (magnifier_zoom_and_lens_stay_valid
            Magnifier.initialState
            [Magnifier.Wheel 100; Magnifier.Wheel 100; Magnifier.Wheel 100;
             Magnifier.MouseMove true 5 5] _ _ _))).
  - split; vm_compute; discriminate.
  - exists 4%Z. reflexivity.
  - unfold Magnifier.lensOnImage; simpl; discriminate.
Defined.
